(** * Cost/accuracy Pareto frontier engine and UCB1 selection score

    A shallow embedding of [docetl/mcts/ParetoFrontier.py] (class
    [ParetoFrontier]) and of [calculate_ucb1] from
    [docetl/mcts/mcts_utils.py], with the properties the specification
    states about them.

    Conventions of the embedding:
    - a Python [float] that can be an infinity is a [float] below: a
      rational (rounding is not modelled), the two infinities, or NaN;
    - a cost is a finite float, hence a rational;
    - a [Dict[Node, _]] is a [gmap] keyed by the identity of the node
      object ([Node.ref]); a [set] of nodes is a [gset] of identities;
    - a Python exception is the [Raise] case of [result]. *)

From Stdlib Require Import QArith Qabs Qminmax Reals Psatz ZArith Sorted Permutation.
From stdpp Require Import gmap strings list fin_maps.

Open Scope Q_scope.

(** ** Exceptions *)

Inductive exn := KeyError | AttributeError | ValueError | ZeroDivisionError.

Inductive result (A : Type) :=
| Ok (a : A)
| Raise (e : exn).
Arguments Ok {A} a.
Arguments Raise {A} e.

#[global] Instance result_ret : MRet result := λ A a, Ok a.
#[global] Instance result_bind : MBind result := λ A B k m,
  match m with
  | Ok a => k a
  | Raise e => Raise e
  end.

Fixpoint mapR {A B} (f : A → result B) (l : list A) : result (list B) :=
  match l with
  | [] => Ok []
  | x :: l' => y ← f x; ys ← mapR f l'; Ok (y :: ys)
  end.

(** [d[k]] on a dict: [KeyError] when the key is absent. *)
Definition getitem {K V} `{Countable K} (d : gmap K V) (k : K) : result V :=
  match d !! k with
  | Some v => Ok v
  | None => Raise KeyError
  end.

(** ** Floats *)

Module Float.

Inductive float := NaN | NInf | Fin (q : Q) | PInf.

(** [a < b] *)
Definition lt (a b : float) : bool :=
  match a, b with
  | NaN, _ | _, NaN => false
  | NInf, NInf => false
  | NInf, _ => true
  | Fin _, NInf => false
  | Fin p, Fin q => negb (Qle_bool q p)
  | Fin _, PInf => true
  | PInf, _ => false
  end.

(** [a > b] *)
Definition gt (a b : float) : bool := lt b a.

Definition neg (a : float) : float :=
  match a with
  | NaN => NaN
  | NInf => PInf
  | Fin q => Fin (- q)
  | PInf => NInf
  end.

Definition add (a b : float) : float :=
  match a, b with
  | NaN, _ | _, NaN => NaN
  | NInf, PInf | PInf, NInf => NaN
  | NInf, _ | _, NInf => NInf
  | PInf, _ | _, PInf => PInf
  | Fin p, Fin q => Fin (p + q)
  end.

Definition sub (a b : float) : float := add a (neg b).

Definition abs (a : float) : float :=
  match a with
  | NaN => NaN
  | NInf | PInf => PInf
  | Fin q => Fin (Qabs q)
  end.

(** [a / n] for a positive integer [n] (the length of a non-empty list). *)
Definition div_pos (a : float) (n : positive) : float :=
  match a with
  | Fin q => Fin (q / inject_Z (Zpos n))
  | other => other
  end.

(** The builtins [max(a, b)] and [min(a, b)]: the first argument is kept
    unless the second compares strictly beyond it. *)
Definition max (a b : float) : float := if gt b a then b else a.
Definition min (a b : float) : float := if lt b a then b else a.

(** The same float value (rationals up to [Qeq]). *)
Definition eqv (a b : float) : Prop :=
  match a, b with
  | NaN, NaN | NInf, NInf | PInf, PInf => True
  | Fin p, Fin q => p == q
  | _, _ => False
  end.

Definition is_finite (a : float) : Prop :=
  match a with Fin _ => True | _ => False end.

(** [a <= b] as a proposition (false as soon as one side is NaN). *)
Definition le (a b : float) : Prop :=
  match a, b with
  | NaN, _ | _, NaN => False
  | NInf, _ | _, PInf => True
  | Fin p, Fin q => p <= q
  | _, _ => False
  end.

End Float.

Import Float.
Abbreviation float := Float.float.

(** ** Sorting by a cost key

    [sorted(xs, key=...)] and [xs.sort(key=...)] are stable: elements of
    equal key keep their relative order.  Insertion from the right, before
    the first element whose key is not smaller, computes that order. *)

Section Sorting.
Context {A : Type} (key : A → Q).

Fixpoint insert_by (x : A) (l : list A) : list A :=
  match l with
  | [] => [x]
  | y :: l' =>
      if Qle_bool (key x) (key y) then x :: y :: l' else y :: insert_by x l'
  end.

Definition sorted_by (l : list A) : list A := foldr insert_by [] l.

Definition key_le (a b : A) : Prop := key a <= key b.

End Sorting.

(** ** Plans *)

Module Node.

(** The attributes of a search-tree node the engine reads.  [ref] is the
    identity of the node object (what [Dict[Node, _]], [set] and [in] go
    by); [id] is its [id] attribute. *)
Record t := {
  ref : nat;
  id : Z;
  cost : Q;
  latest_action : option string
}.

End Node.

(** The failure sentinel of [node.cost]. *)
Definition is_failure (node : Node.t) : bool := Qeq_bool (Node.cost node) (-1).

(** ** The engine state: the attributes of [ParetoFrontier]

    [on_frontier] holds the [on_frontier] flag the engine writes on the node
    objects. *)
Record ParetoFrontier := {
  plans : list Node.t;
  plans_accuracy : gmap nat float;
  plans_cost : gmap nat Q;
  frontier_plans : list Node.t;
  frontier_data : list (float * Q);
  action_rewards : gmap string float;
  node_distances : gmap nat float;
  on_frontier : gmap nat bool
}.

(** [ParetoFrontier(comparator, action_rewards, dataset_name)] *)
Definition init (action_rewards : gmap string float) : ParetoFrontier :=
  {| plans := []; plans_accuracy := ∅; plans_cost := ∅;
     frontier_plans := []; frontier_data := [];
     action_rewards := action_rewards; node_distances := ∅;
     on_frontier := ∅ |}.

(** ** [project_to_frontier] *)

(** The [for ... break] loop over the sorted frontier: the running
    [step_function_accuracy] is overwritten while the node's cost reaches
    the point's cost, and the loop stops at the first costlier point. *)
Fixpoint step_scan (node_cost : Q) (frontier_sorted : list (float * Q))
    (step_function_accuracy : float) : float :=
  match frontier_sorted with
  | [] => step_function_accuracy
  | (fp_acc, fp_cost) :: rest =>
      if Qle_bool fp_cost node_cost
      then step_scan node_cost rest fp_acc
      else step_function_accuracy
  end.

(** The value of the step function of [frontier_data] at [node_cost]. *)
Definition step_value (node_cost : Q) (frontier_data : list (float * Q)) : float :=
  step_scan node_cost (sorted_by snd frontier_data) (Fin 0).

Definition project_to_frontier (node_acc : float) (node_cost : Q)
    (frontier_data : list (float * Q)) : float :=
  match frontier_data with
  | [] => node_acc
  | _ => Float.abs (Float.sub node_acc (step_value node_cost frontier_data))
  end.

(** ** [_update_action_rewards] *)

Definition _update_action_rewards (action_rewards : gmap string float)
    (node : Node.t) (reward : float) : gmap string float :=
  match Node.latest_action node with
  | None => action_rewards
  | Some action =>
      if Nat.eqb (size action_rewards) 0 then action_rewards
      else match action_rewards !! action with
           | Some total => <[action := Float.add total reward]> action_rewards
           | None => action_rewards
           end
  end.

(** ** [update_pareto_frontier_HV] *)

(** [node in nodes] and [node in set(nodes)]: by object identity. *)
Definition node_in (node : Node.t) (nodes : list Node.t) : bool :=
  existsb (λ other, Nat.eqb (Node.ref other) (Node.ref node)) nodes.

Definition node_set (nodes : list Node.t) : gset nat :=
  list_to_set (map Node.ref nodes).

(** [valid_nodes.sort(key=lambda node: self.plans_cost[node])] *)
Definition sort_by_cost (plans_cost : gmap nat Q) (valid_nodes : list Node.t)
    : result (list Node.t) :=
  keyed ← mapR (λ node, c ← getitem plans_cost (Node.ref node); Ok (c, node)) valid_nodes;
  Ok (map snd (sorted_by fst keyed)).

(** The old frontier as [[acc, real_cost]] points, from the old frontier
    nodes that are still valid. *)
Definition reconstruct_old_frontier (self : ParetoFrontier)
    (old_frontier_nodes valid_nodes : list Node.t) : result (list (float * Q)) :=
  mapR (λ node,
          let acc := default NInf (plans_accuracy self !! Node.ref node) in
          real_cost ← getitem (plans_cost self) (Node.ref node);
          Ok (acc, real_cost))
       (filter (λ node, node_in node valid_nodes = true) old_frontier_nodes).

(** The linear scan with its running maximum. *)
Fixpoint scan_frontier (plans_accuracy : gmap nat float) (valid_nodes : list Node.t)
    (max_accuracy_so_far : float) : list Node.t :=
  match valid_nodes with
  | [] => []
  | node :: rest =>
      let accuracy := default (Fin 0) (plans_accuracy !! Node.ref node) in
      if Float.gt accuracy max_accuracy_so_far
      then node :: scan_frontier plans_accuracy rest accuracy
      else scan_frontier plans_accuracy rest max_accuracy_so_far
  end.

(** The new frontier as points.  [self.plans_accuracy.get(node)] is [None]
    for a node without a recorded accuracy; the reward loop below then
    stops on that node's [self.plans_accuracy[node]] or on arithmetic with
    [None], so the absent entry is an exception here. *)
Definition frontier_points (self : ParetoFrontier) (frontier : list Node.t)
    : result (list (float * Q)) :=
  mapR (λ node,
          acc ← getitem (plans_accuracy self) (Node.ref node);
          real_cost ← getitem (plans_cost self) (Node.ref node);
          Ok (acc, real_cost))
       frontier.

(** What the reward loop mutates. *)
Record rewards := {
  affected_nodes : gmap nat float;
  r_node_distances : gmap nat float;
  r_action_rewards : gmap string float;
  r_on_frontier : gmap nat bool
}.

(** The branches of one iteration of [for node in valid_nodes] (the reward
    loop), once the node's cost and accuracy have been read. *)
Definition reward_branches (new_node : Node.t)
    (old_frontier_set new_frontier_set : gset nat)
    (archive_frontier_data new_frontier_data : list (float * Q))
    (st : rewards) (node : Node.t) (node_real_cost : Q) (node_acc : float)
    : rewards :=
  let in_new := bool_decide (Node.ref node ∈ new_frontier_set) in
  let in_old := bool_decide (Node.ref node ∈ old_frontier_set) in
  let is_new_node := Z.eqb (Node.id node) (Node.id new_node) in
  if in_new && negb in_old then
    let vertical_distance_to_old :=
      project_to_frontier node_acc node_real_cost archive_frontier_data in
    {| affected_nodes := <[Node.ref node := vertical_distance_to_old]> (affected_nodes st);
       r_node_distances := <[Node.ref node := vertical_distance_to_old]> (r_node_distances st);
       r_action_rewards :=
         _update_action_rewards (r_action_rewards st) node vertical_distance_to_old;
       r_on_frontier := <[Node.ref node := true]> (r_on_frontier st) |}
  else if (negb in_new && in_old) || is_new_node then
    let vertical_distance :=
      project_to_frontier node_acc node_real_cost new_frontier_data in
    {| affected_nodes := <[Node.ref node := Float.neg vertical_distance]> (affected_nodes st);
       r_node_distances := <[Node.ref node := Float.neg vertical_distance]> (r_node_distances st);
       r_action_rewards :=
         if is_new_node
         then _update_action_rewards (r_action_rewards st) node (Float.neg vertical_distance)
         else r_action_rewards st;
       r_on_frontier := <[Node.ref node := false]> (r_on_frontier st) |}
  else if negb in_new then
    let vertical_distance :=
      project_to_frontier node_acc node_real_cost new_frontier_data in
    let old_distance := default (Fin 0) (r_node_distances st !! Node.ref node) in
    let distance_diff := Float.sub (Float.neg vertical_distance) old_distance in
    {| affected_nodes := <[Node.ref node := distance_diff]> (affected_nodes st);
       r_node_distances := <[Node.ref node := Float.neg vertical_distance]> (r_node_distances st);
       r_action_rewards := r_action_rewards st;
       r_on_frontier := <[Node.ref node := false]> (r_on_frontier st) |}
  else st.

(** One iteration of the reward loop. *)
Definition reward_step (self : ParetoFrontier) (new_node : Node.t)
    (old_frontier_set new_frontier_set : gset nat)
    (archive_frontier_data new_frontier_data : list (float * Q))
    (st : rewards) (node : Node.t) : result rewards :=
  node_real_cost ← getitem (plans_cost self) (Node.ref node);
  node_acc ← getitem (plans_accuracy self) (Node.ref node);
  Ok (reward_branches new_node old_frontier_set new_frontier_set
        archive_frontier_data new_frontier_data st node node_real_cost node_acc).

Fixpoint foldR {A B} (f : B → A → result B) (b : B) (l : list A) : result B :=
  match l with
  | [] => Ok b
  | x :: l' => b' ← f b x; foldR f b' l'
  end.

(** The function up to its last assignments.  Its tail, which runs when
    [new_node.id > 0], creates a directory and writes a plot of the plans
    ([os.makedirs], [plot_plans]); it reads the engine state without
    changing it and is left out, so that [Ok] is what the call returns
    when that tail completes. *)
Definition update_pareto_frontier_HV (self : ParetoFrontier) (new_node : Node.t)
    : result (ParetoFrontier * gmap nat float * bool) :=
  let valid_nodes := filter (λ node, is_failure node = false) (plans self) in
  match valid_nodes with
  | [] =>
      Ok ({| plans := plans self; plans_accuracy := plans_accuracy self;
             plans_cost := plans_cost self;
             frontier_plans := []; frontier_data := [];
             action_rewards := action_rewards self;
             node_distances := node_distances self;
             on_frontier := on_frontier self |}, ∅, false)
  | _ =>
      let old_frontier_nodes := frontier_plans self in
      valid_nodes ← sort_by_cost (plans_cost self) valid_nodes;
      archive_frontier_data ←
        reconstruct_old_frontier self old_frontier_nodes valid_nodes;
      let frontier := scan_frontier (plans_accuracy self) valid_nodes NInf in
      new_frontier_data ← frontier_points self frontier;
      let old_frontier_set := node_set old_frontier_nodes in
      let new_frontier_set := node_set frontier in
      let frontier_updated := bool_decide (old_frontier_set ≠ new_frontier_set) in
      out ← foldR (reward_step self new_node old_frontier_set new_frontier_set
                     archive_frontier_data new_frontier_data)
            {| affected_nodes := ∅;
               r_node_distances := node_distances self;
               r_action_rewards := action_rewards self;
               r_on_frontier := on_frontier self |}
            valid_nodes;
      Ok ({| plans := plans self; plans_accuracy := plans_accuracy self;
             plans_cost := plans_cost self;
             frontier_plans := frontier; frontier_data := new_frontier_data;
             action_rewards := r_action_rewards out;
             node_distances := r_node_distances out;
             on_frontier := r_on_frontier out |},
          affected_nodes out, frontier_updated)
  end.

(** ** [add_plan_f1] *)

Definition add_plan_f1 (self : ParetoFrontier) (node : Node.t) (accuracy : float)
    : result (ParetoFrontier * gmap nat float * bool) :=
  if is_failure node then
    Ok ({| plans := plans self;
           plans_accuracy := <[Node.ref node := NInf]> (plans_accuracy self);
           plans_cost := plans_cost self;
           frontier_plans := frontier_plans self; frontier_data := frontier_data self;
           action_rewards := action_rewards self;
           node_distances := node_distances self;
           on_frontier := on_frontier self |}, ∅, false)
  else
    update_pareto_frontier_HV
      {| plans := plans self ++ [node];
         plans_accuracy := <[Node.ref node := accuracy]> (plans_accuracy self);
         plans_cost := <[Node.ref node := Node.cost node]> (plans_cost self);
         frontier_plans := frontier_plans self; frontier_data := frontier_data self;
         action_rewards := action_rewards self;
         node_distances := node_distances self;
         on_frontier := on_frontier self |}
      node.

(** A run of successive ingestions with pre-evaluated accuracies. *)
Definition ingest_all (self : ParetoFrontier) (items : list (Node.t * float))
    : result ParetoFrontier :=
  foldR (λ st item, '(st', _, _) ← add_plan_f1 st item.1 item.2; Ok st') self items.

(** ** [estimate_accuracy_via_comparisons] and [add_plan] *)

Section Estimator.

(** The comparator oracle: [int(self.accuracy_comparator.compare(a, b))], or
    the exception it raised. *)
Variable compare : Node.t → Node.t → result Z.

Definition score_to_adjustment (comparison_score : Z) : float :=
  if Z.eqb comparison_score (-3) then Fin (-0.15)
  else if Z.eqb comparison_score (-1) then Fin (-0.05)
  else if Z.eqb comparison_score 0 then Fin 0.0
  else if Z.eqb comparison_score 1 then Fin 0.05
  else if Z.eqb comparison_score 3 then Fin 0.15
  else Fin 0.0.

(** The body of the [try] for one frontier member. *)
Definition compare_with (self : ParetoFrontier) (new_node existing_node : Node.t)
    : result float :=
  comparison_score ← compare new_node existing_node;
  existing_accuracy ← getitem (plans_accuracy self) (Node.ref existing_node);
  let adjustment := score_to_adjustment comparison_score in
  Ok (Float.add existing_accuracy adjustment).

(** The loop: an estimate is appended, a failure is skipped. *)
Fixpoint collect_estimates (self : ParetoFrontier) (new_node : Node.t)
    (comparison_nodes : list Node.t) (accuracy_estimates : list float) : list float :=
  match comparison_nodes with
  | [] => accuracy_estimates
  | existing_node :: rest =>
      match compare_with self new_node existing_node with
      | Ok estimated_accuracy =>
          collect_estimates self new_node rest (accuracy_estimates ++ [estimated_accuracy])
      | Raise _ => collect_estimates self new_node rest accuracy_estimates
      end
  end.

(** [sum(xs)]: a left fold from 0. *)
Definition sum (xs : list float) : float := foldl Float.add (Fin 0) xs.

Definition estimate_accuracy_via_comparisons (self : ParetoFrontier)
    (new_node : Node.t) : float :=
  let comparison_nodes := frontier_plans self in
  match comparison_nodes with
  | [] => Fin 0.5
  | _ =>
      let accuracy_estimates := collect_estimates self new_node comparison_nodes [] in
      match accuracy_estimates with
      | [] => Fin 0.5
      | _ =>
          let final_accuracy :=
            Float.div_pos (sum accuracy_estimates)
                          (Pos.of_nat (length accuracy_estimates)) in
          Float.max (Fin 0.1) (Float.min (Fin 0.95) final_accuracy)
      end
  end.

(** [self.update_pareto_frontier]: the class defines
    [update_pareto_frontier_HV] only, so looking this attribute up on the
    instance raises. *)
Definition update_pareto_frontier (self : ParetoFrontier)
    : result (ParetoFrontier * gmap nat float) :=
  Raise AttributeError.

Definition add_plan (self : ParetoFrontier) (node : Node.t)
    : result (ParetoFrontier * gmap nat float) :=
  if is_failure node then Ok (self, ∅)
  else
    let self1 :=
      {| plans := plans self ++ [node];
         plans_accuracy := plans_accuracy self;
         plans_cost := <[Node.ref node := Node.cost node]> (plans_cost self);
         frontier_plans := frontier_plans self; frontier_data := frontier_data self;
         action_rewards := action_rewards self;
         node_distances := node_distances self;
         on_frontier := on_frontier self |} in
    let estimated_accuracy :=
      if Nat.eqb (size (plans_accuracy self1)) 0 then Fin 0.5
      else estimate_accuracy_via_comparisons self1 node in
    let self2 :=
      {| plans := plans self1;
         plans_accuracy := <[Node.ref node := estimated_accuracy]> (plans_accuracy self1);
         plans_cost := plans_cost self1;
         frontier_plans := frontier_plans self1; frontier_data := frontier_data self1;
         action_rewards := action_rewards self1;
         node_distances := node_distances self1;
         on_frontier := on_frontier self1 |} in
    '(self3, affected_nodes) ← update_pareto_frontier self2;
    match affected_nodes !! Node.ref node with
    | Some _ => Ok (self3, affected_nodes)
    | None => Ok (self3, <[Node.ref node := Fin 0]> affected_nodes)
    end.

End Estimator.

(** ** [calculate_ucb1] *)

Module UCB1.

(** The attributes of a node the score reads. *)
Record node := {
  value : R;
  visits : Z
}.

(** A score: [float('inf')] or a real number. *)
Inductive score := Inf | Finite (r : R).

(** [math.log(x)] for an integer [x]: a domain error unless [x] is positive. *)
Definition math_log (x : Z) : result R :=
  if (x <=? 0)%Z then Raise ValueError else Ok (ln (IZR x)).

(** [math.sqrt(x)]: a domain error on a negative argument. *)
Definition math_sqrt (x : R) : result R :=
  if Rlt_dec x 0 then Raise ValueError else Ok (sqrt x).

(** [x / n] for an integer [n]. *)
Definition truediv (x : R) (n : Z) : result R :=
  if (n =? 0)%Z then Raise ZeroDivisionError else Ok (x / IZR n)%R.

Definition default_exploration_constant : R := sqrt 2.

Definition calculate_ucb1 (n : node) (parent_visits : Z) (exploration_constant : R)
    : result score :=
  if (visits n =? 0)%Z then Ok Inf
  else
    exploitation ← truediv (value n) (visits n);
    log_parent ← math_log parent_visits;
    ratio ← truediv log_parent (visits n);
    root ← math_sqrt ratio;
    let exploration := (exploration_constant * root)%R in
    Ok (Finite (exploitation + exploration)%R).

(** The call with [exploration_constant] left to its default. *)
Definition calculate_ucb1_default (n : node) (parent_visits : Z) : result score :=
  calculate_ucb1 n parent_visits default_exploration_constant.

End UCB1.

(** ** Notions the properties are stated with *)

(** The estimates of the comparisons that went through, in frontier order:
    the member's recorded accuracy plus the adjustment of its score. *)
Definition successful_estimates (compare : Node.t → Node.t → result Z)
    (self : ParetoFrontier) (new_node : Node.t) (members : list Node.t) : list float :=
  omap (λ member,
          match compare new_node member, plans_accuracy self !! Node.ref member with
          | Ok score, Some known => Some (Float.add known (score_to_adjustment score))
          | _, _ => None
          end)
       members.

Definition mean (xs : list float) : float :=
  Float.div_pos (sum xs) (Pos.of_nat (length xs)).

Definition clamp (lo hi x : float) : float :=
  if Float.lt x lo then lo else if Float.lt hi x then hi else x.

(** The plans the update works on. *)
Definition valid_plans (self : ParetoFrontier) : list Node.t :=
  filter (λ node, is_failure node = false) (plans self).

(** Ordered by recorded cost. *)
Definition cost_le (plans_cost : gmap nat Q) (a b : Node.t) : Prop :=
  ∃ ca cb, plans_cost !! Node.ref a = Some ca ∧
           plans_cost !! Node.ref b = Some cb ∧ ca <= cb.

(** The accuracy the scan reads for a node. *)
Definition scan_accuracy (plans_accuracy : gmap nat float) (node : Node.t) : float :=
  default (Fin 0) (plans_accuracy !! Node.ref node).

(** The state the reward loop starts from. *)
Definition rewards_init (self : ParetoFrontier) : rewards :=
  {| affected_nodes := ∅;
     r_node_distances := node_distances self;
     r_action_rewards := action_rewards self;
     r_on_frontier := on_frontier self |}.


(** The frontier invariant: of two frontier members, the costlier one is
    strictly more accurate. *)
Definition monotone_frontier (self : ParetoFrontier) : Prop :=
  ∀ a b ca cb xa xb,
    In a (frontier_plans self) → In b (frontier_plans self) →
    plans_cost self !! Node.ref a = Some ca →
    plans_cost self !! Node.ref b = Some cb →
    plans_accuracy self !! Node.ref a = Some xa →
    plans_accuracy self !! Node.ref b = Some xb →
    ca < cb → Float.lt xa xb = true.

(** Domination exclusion as the specification words it: no valid plan
    costs at most what a frontier member costs and is strictly more
    accurate. *)
Definition no_dominating_plan (self : ParetoFrontier) : Prop :=
  ∀ m p cm cp xm xp,
    In m (frontier_plans self) → In p (valid_plans self) →
    plans_cost self !! Node.ref m = Some cm →
    plans_cost self !! Node.ref p = Some cp →
    plans_accuracy self !! Node.ref m = Some xm →
    plans_accuracy self !! Node.ref p = Some xp →
    cp <= cm → Float.gt xp xm = false.

(** Domination exclusion as the scan ensures it: a valid plan that costs
    strictly less than a frontier member is not more accurate, and is
    strictly less accurate unless its accuracy is NaN. *)
Definition no_cheaper_better_plan (self : ParetoFrontier) : Prop :=
  ∀ m p cm cp xm xp,
    In m (frontier_plans self) → In p (valid_plans self) →
    plans_cost self !! Node.ref m = Some cm →
    plans_cost self !! Node.ref p = Some cp →
    plans_accuracy self !! Node.ref m = Some xm →
    plans_accuracy self !! Node.ref p = Some xp →
    cp < cm → Float.gt xp xm = false ∧ (xp ≠ NaN → Float.lt xp xm = true).

(** Two plans of equal cost, the more accurate one ingested second. *)
Definition plan_a : Node.t :=
  {| Node.ref := 1; Node.id := 1; Node.cost := 10; Node.latest_action := None |}.
Definition plan_b : Node.t :=
  {| Node.ref := 2; Node.id := 2; Node.cost := 10; Node.latest_action := None |}.

(** Of two nodes, the second costs at least as much and is strictly more
    accurate. *)
Definition climbs (plans_accuracy : gmap nat float) (plans_cost : gmap nat Q)
    (a b : Node.t) : Prop :=
  cost_le plans_cost a b ∧
  Float.lt (scan_accuracy plans_accuracy a) (scan_accuracy plans_accuracy b) = true.

(** The state [add_plan_f1] hands to the update: the plan appended, its
    cost and accuracy on record. *)
Definition stored (self : ParetoFrontier) (node : Node.t) (accuracy : float)
    : ParetoFrontier :=
  {| plans := plans self ++ [node];
     plans_accuracy := <[Node.ref node := accuracy]> (plans_accuracy self);
     plans_cost := <[Node.ref node := Node.cost node]> (plans_cost self);
     frontier_plans := frontier_plans self; frontier_data := frontier_data self;
     action_rewards := action_rewards self;
     node_distances := node_distances self;
     on_frontier := on_frontier self |}.

(** A plan joins the frontier: on the new one, not on the old one. *)
Definition newly_on (old_frontier_set new_frontier_set : gset nat)
    (node : Node.t) : bool :=
  bool_decide (Node.ref node ∈ new_frontier_set)
  && negb (bool_decide (Node.ref node ∈ old_frontier_set)).

(** The plans whose reward goes to the action sink: the plans that join the
    frontier and the just-inserted plan. *)
Definition credited (old_frontier_set new_frontier_set : gset nat)
    (new_node node : Node.t) : bool :=
  newly_on old_frontier_set new_frontier_set node
  || Z.eqb (Node.id node) (Node.id new_node).

(** The reward of a credited plan: its distance to the old step function
    when it joins the frontier, minus its distance to the new one otherwise. *)
Definition node_reward (self : ParetoFrontier)
    (old_frontier_set new_frontier_set : gset nat)
    (archive_frontier_data new_frontier_data : list (float * Q))
    (node : Node.t) : float :=
  let node_acc := default NaN (plans_accuracy self !! Node.ref node) in
  let node_real_cost := default 0 (plans_cost self !! Node.ref node) in
  if newly_on old_frontier_set new_frontier_set node
  then project_to_frontier node_acc node_real_cost archive_frontier_data
  else Float.neg (project_to_frontier node_acc node_real_cost new_frontier_data).

(** The rewards of the credited plans produced by [action], in the order of
    the loop. *)
Definition rewards_for (self : ParetoFrontier)
    (old_frontier_set new_frontier_set : gset nat)
    (archive_frontier_data new_frontier_data : list (float * Q))
    (new_node : Node.t) (action : string) (nodes : list Node.t) : list float :=
  map (node_reward self old_frontier_set new_frontier_set
         archive_frontier_data new_frontier_data)
      (filter (λ node,
                 credited old_frontier_set new_frontier_set new_node node = true
                 ∧ Node.latest_action node = Some action)
              nodes).




(** The first plan of a run, of accuracy 0. *)
Definition plan_zero : Node.t :=
  {| Node.ref := 1; Node.id := 1; Node.cost := 10; Node.latest_action := None |}.

(** The engine with the failure plans dropped from its plan list. *)
Definition without_failures (self : ParetoFrontier) : ParetoFrontier :=
  {| plans := valid_plans self; plans_accuracy := plans_accuracy self;
     plans_cost := plans_cost self;
     frontier_plans := frontier_plans self; frontier_data := frontier_data self;
     action_rewards := action_rewards self;
     node_distances := node_distances self;
     on_frontier := on_frontier self |}.

(** Two update results that agree on everything but the plan list. *)
Definition same_outcome
    (r1 r2 : result (ParetoFrontier * gmap nat float * bool)) : Prop :=
  match r1, r2 with
  | Ok (s1, affected1, updated1), Ok (s2, affected2, updated2) =>
      affected1 = affected2 ∧ updated1 = updated2 ∧
      frontier_plans s1 = frontier_plans s2 ∧ frontier_data s1 = frontier_data s2 ∧
      action_rewards s1 = action_rewards s2 ∧
      node_distances s1 = node_distances s2 ∧
      plans_accuracy s1 = plans_accuracy s2 ∧ plans_cost s1 = plans_cost s2
  | Raise e1, Raise e2 => e1 = e2
  | _, _ => False
  end.

(** A plan with the failure sentinel as its cost. *)
Definition failed_plan : Node.t :=
  {| Node.ref := 7; Node.id := 7; Node.cost := -1;
     Node.latest_action := Some "chunking"%string |}.

(** Two more plans, produced by a rewrite action. *)
Definition plan_c : Node.t :=
  {| Node.ref := 3; Node.id := 3; Node.cost := 20;
     Node.latest_action := Some "gleaning"%string |}.

(** The engine after a run of ingestions from an engine whose sink knows
    the action of [plan_c] and [plan_d]. *)
Definition engine_after (items : list (Node.t * float)) : ParetoFrontier :=
  match ingest_all (init {[ "gleaning"%string := Fin 0 ]}) items with
  | Ok self => self
  | Raise _ => init ∅
  end.

(** ** [__len__], [__contains__] and [get_all_plans_summary] *)

Definition __len__ (self : ParetoFrontier) : nat := length (plans self).

Definition __contains__ (self : ParetoFrontier) (node : Node.t) : bool :=
  node_in node (plans self).

Section Summary.

(** The attributes and the method of a node that only the summary reads. *)
Context {Path Value : Type}.
Variable get_id : Node.t → Z.
Variable yaml_file_path : Node.t → Path.
Variable value : Node.t → Value.



End Summary.

(** The accepted plans of a run of ingestions, in order. *)
Definition accepted (items : list (Node.t * float)) : list Node.t :=
  map fst (filter (λ item, is_failure item.1 = false) items).

(** * Document reader: [ReadNextDocTool] of [agent_utils.py] *)

Module ReadNextDocTool.
Section Tool.
Context {Doc : Type}.

Record t := {
  input_data : list Doc;
  current_index : nat;
  context_window : Z;
  total_docs : nat
}.

(** [ReadNextDocTool(input_data, context_window)] *)
Definition init (input_data : list Doc) (context_window : Z) : t :=
  {| input_data := input_data; current_index := 0;
     context_window := context_window; total_docs := length input_data |}.

(** [self.current_index += 1] *)
Definition advance (self : t) : t :=
  {| input_data := input_data self; current_index := S (current_index self);
     context_window := context_window self; total_docs := total_docs self |}.

(** The document and the tool after the call.  The guard makes the index
    valid, so the lookup always finds the document. *)
Definition read_next_doc (self : t) : option Doc * t :=
  if Nat.leb (length (input_data self)) (current_index self) then (None, self)
  else match input_data self !! current_index self with
       | Some doc => (Some doc, advance self)
       | None => (None, self)
       end.

(** [for _ in range(count)], with its [break]. *)
Fixpoint read_loop (iterations : nat) (self : t) (docs : list Doc) : list Doc * t :=
  match iterations with
  | O => (docs, self)
  | S iterations' =>
      if Nat.leb (length (input_data self)) (current_index self) then (docs, self)
      else match input_data self !! current_index self with
           | Some doc => read_loop iterations' (advance self) (docs ++ [doc])
           | None => (docs, self)
           end
  end.

Definition DOCS_TO_READ_PER_ITERATION : Z := 3.

(** [range(count)] is empty for a negative [count]. *)
Definition read_next_docs (self : t) (count : Z) : list Doc * t :=
  read_loop (Z.to_nat count) self [].

Definition has_more_docs (self : t) : bool :=
  Nat.ltb (current_index self) (length (input_data self)).

Definition get_remaining_count (self : t) : Z :=
  (Z.of_nat (length (input_data self)) - Z.of_nat (current_index self))%Z.

Definition reset (self : t) : t :=
  {| input_data := input_data self; current_index := 0;
     context_window := context_window self; total_docs := total_docs self |}.

End Tool.
Arguments t : clear implicits.
End ReadNextDocTool.

(** * Chat messages: [truncate_message_content] of [agent_utils.py] and
      [count_tokens], [trim_history] of [mcts_utils.py] *)

Module Chat.

(** A message dict, with the two keys the code reads; its content, when
    present, is a string. *)
Record message := {
  role : option string;
  content : option string
}.

(** [msg.get("content", "")] *)
Definition content_or_empty (msg : message) : string := default ""%string (content msg).

Definition has_role (name : string) (msg : message) : bool :=
  match role msg with
  | Some r => String.eqb r name
  | None => false
  end.

(** [sum(xs)] over integers. *)
Definition sumZ (xs : list Z) : Z := foldl Z.add 0%Z xs.

(** [l.insert(-1, x)]: before the last element, or into the empty list. *)
Definition insert_before_last {A} (x : A) (l : list A) : list A :=
  match l with
  | [] => [x]
  | y :: _ => removelast l ++ [x; List.last l y]
  end.

Section Truncate.

(** [count_tokens(text, model)] of [docetl.operations.utils.llm], which is
    not part of these sources. *)
Variable llm_count_tokens : string → string → Z.

Definition estimate_token_count (text model : string) : Z :=
  llm_count_tokens text model.

(** [estimate_token_count(msg.get("content", ""))], with the default model. *)
Definition message_tokens (msg : message) : Z :=
  estimate_token_count (content_or_empty msg) "gpt-4.1-mini".

(** The loop over [reversed(middle_messages)], with its [break]. *)
Fixpoint add_middle (available_tokens : Z) (msgs : list message)
    (current_tokens : Z) (truncated_messages : list message) : list message :=
  match msgs with
  | [] => truncated_messages
  | msg :: rest =>
      let msg_tokens := message_tokens msg in
      if (current_tokens + msg_tokens <=? available_tokens)%Z
      then add_middle available_tokens rest (current_tokens + msg_tokens)%Z
             (insert_before_last msg truncated_messages)
      else truncated_messages
  end.

Definition truncate_message_content (messages : list message) (max_tokens : Z)
    : list message :=
  match messages with
  | [] => messages
  | first :: rest =>
      let total_tokens := sumZ (map message_tokens messages) in
      if (total_tokens <=? max_tokens)%Z then messages
      else
        let system_first := has_role "system" first in
        let truncated_messages := if system_first then [first] else [] in
        let remaining_messages := if system_first then rest else messages in
        let truncated_messages :=
          match remaining_messages with
          | [] => truncated_messages
          | _ => truncated_messages ++ [List.last remaining_messages first]
          end in
        let middle_messages :=
          match remaining_messages with
          | [] => []
          | _ => removelast remaining_messages
          end in
        let system_tokens :=
          match truncated_messages with
          | [] => 0%Z
          | msg :: _ => message_tokens msg
          end in
        let latest_tokens :=
          if Nat.ltb 1 (length truncated_messages)
          then message_tokens (List.last truncated_messages first)
          else 0%Z in
        let available_tokens :=
          (max_tokens - system_tokens - latest_tokens - 1000)%Z in
        add_middle available_tokens (rev middle_messages) 0%Z truncated_messages
  end.

(** The estimated size of a list of messages. *)
Definition tokens_of (messages : list message) : Z :=
  sumZ (map message_tokens messages).

End Truncate.

(** The system message that opens a conversation, when there is one. *)
Definition system_prefix (messages : list message) : list message :=
  match messages with
  | first :: _ => if has_role "system" first then [first] else []
  | [] => []
  end.

(** A counter that estimates every text at 600 tokens, and a message with
    a role and a content. *)
Definition flat_count (text model : string) : Z := 600.

Definition say (who what : string) : message :=
  {| role := Some who; content := Some what |}.

(** An element of the list handed to [count_tokens]: a dict or not. *)
Inductive item := Dict (msg : message) | NotDict.

Definition MAX_CONTEXT_TOKENS : Z := 270000.

(** [len] of a string, in characters. *)
Definition len (s : string) : Z := Z.of_nat (String.length s).

Definition count_tokens (messages : list item) : Z :=
  let total_chars :=
    sumZ (omap (λ m, match m with
                     | Dict msg => Some (len (content_or_empty msg))
                     | NotDict => None
                     end) messages) in
  Z.max 1 (total_chars / 4).

(** [for i in range(1, len(history))]: the index of the first user message,
    counting from [i]. *)
Fixpoint first_user_from (i : nat) (messages : list message) : option nat :=
  match messages with
  | [] => None
  | msg :: rest =>
      if has_role "user" msg then Some i else first_user_from (S i) rest
  end.

Definition find_start_idx (history : list message) (keep_system_first : bool) : nat :=
  match history with
  | first :: rest =>
      if keep_system_first then
        if has_role "system" first || has_role "user" first then
          match first_user_from 1 rest with
          | Some i => i + 1
          | None => 1
          end
        else 0
      else 0
  | [] => 0
  end.

(** [history.pop(i)] for a valid index. *)
Definition pop_at {A} (i : nat) (l : list A) : list A := take i l ++ drop (S i) l.

(** The [while] loop; each turn shortens the history, so its length bounds
    the number of turns. *)
Fixpoint trim_loop (fuel start_idx : nat) (history : list message) : list message :=
  match fuel with
  | O => history
  | S fuel' =>
      if Nat.ltb (start_idx + 1) (length history)
         && (MAX_CONTEXT_TOKENS <? count_tokens (map Dict history))%Z
      then trim_loop fuel' start_idx (pop_at start_idx history)
      else history
  end.

Definition trim_history (history : list message) (keep_system_first : bool)
    : list message :=
  trim_loop (length history) (find_start_idx history keep_system_first) history.

End Chat.

(** * Search utilities of [mcts_utils.py] *)

(** ** [fix_models_azure] *)

Module Yaml.

(** A parsed YAML document: strings, dicts with string keys (in insertion
    order), lists, and the other scalars, which the traversal leaves alone. *)
#[warnings="-register-all"]
Inductive yaml :=
| YStr (s : string)
| YOther (repr : string)
| YDict (items : list (string * yaml))
| YList (items : list yaml).

(** [value.startswith("azure")] *)
Definition startswith_azure (value : string) : bool := String.prefix "azure" value.

(** The inner [traverse]; it updates the document in place, and the model
    returns the document after the update. *)
Fixpoint traverse (obj : yaml) : yaml :=
  match obj with
  | YDict items =>
      YDict (map (λ entry,
        match entry with
        | (key, value) =>
            if String.eqb key "model" then
              match value with
              | YStr s =>
                  if startswith_azure s then (key, value)
                  else (key, YStr ("azure/" ++ s))
              | _ => (key, traverse value)
              end
            else (key, traverse value)
        end) items)
  | YList items => YList (map traverse items)
  | _ => obj
  end.

Definition fix_models_azure (parsed_yaml : yaml) : yaml := traverse parsed_yaml.

(** Every string stored under a key ["model"] starts with ["azure"]. *)
Fixpoint models_on_azure (obj : yaml) : bool :=
  match obj with
  | YDict items =>
      forallb (λ entry,
        match entry with
        | (key, value) =>
            if String.eqb key "model" then
              match value with
              | YStr s => startswith_azure s
              | _ => models_on_azure value
              end
            else models_on_azure value
        end) items
  | YList items => forallb models_on_azure items
  | _ => true
  end.

(** The document with its strings under ["model"] blanked: what the fix
    must not touch. *)
Fixpoint skeleton (obj : yaml) : yaml :=
  match obj with
  | YDict items =>
      YDict (map (λ entry,
        match entry with
        | (key, value) =>
            if String.eqb key "model" then
              match value with
              | YStr s => (key, YStr "")
              | _ => (key, skeleton value)
              end
            else (key, skeleton value)
        end) items)
  | YList items => YList (map skeleton items)
  | _ => obj
  end.

(** The strings stored under ["model"], in the order of the traversal. *)
Fixpoint model_strings (obj : yaml) : list string :=
  match obj with
  | YDict items =>
      flat_map (λ entry,
        match entry with
        | (key, value) =>
            if String.eqb key "model" then
              match value with
              | YStr s => [s]
              | _ => model_strings value
              end
            else model_strings value
        end) items
  | YList items => flat_map model_strings items
  | _ => []
  end.

(** A model name as the fix leaves it. *)
Definition on_azure (model : string) : string :=
  if startswith_azure model then model else "azure/" ++ model.

End Yaml.

(** ** [update_pipeline] *)

Module Pipeline.

(** What the function can raise. *)
Inductive failure := UnboundLocalError | IndexError.

(** An operation dict of [new_ops_list]: its ["name"] key, when present. *)
Record operation := { name : option string }.

(** A step dict: its ["operations"] key, when present, and the rest. *)
Record step (Rest : Type) := {
  operations : option (list string);
  step_rest : Rest
}.
Arguments operations {Rest} s.
Arguments step_rest {Rest} s.

(** The configuration dict: [None] where ["pipeline"] or its ["steps"] is
    absent. *)
Record config (Rest : Type) := {
  pipeline_steps : option (list (step Rest));
  config_rest : Rest
}.
Arguments pipeline_steps {Rest} c.
Arguments config_rest {Rest} c.

Section Update.
Context {Rest : Type}.

(** [[op.get("name") for op in new_ops_list if "name" in op]] *)
Definition names_of (new_ops_list : list operation) : list string :=
  omap name new_ops_list.

(** The loop over [step["operations"]].  [op_names] is [None] while the
    local variable is unbound. *)
Fixpoint replace_ops (op_names : option (list string)) (target_ops : list string)
    (ops new_ops : list string) : failure + list string :=
  match ops with
  | [] => inr new_ops
  | op :: rest =>
      match target_ops with
      | [] => inl IndexError
      | target :: _ =>
          if String.eqb op target then
            match op_names with
            | None => inl UnboundLocalError
            | Some names => replace_ops op_names target_ops rest (new_ops ++ names)
            end
          else replace_ops op_names target_ops rest new_ops
      end
  end.

Definition update_step (op_names : option (list string)) (target_ops : list string)
    (s : step Rest) : failure + step Rest :=
  match operations s with
  | Some ops =>
      match replace_ops op_names target_ops ops [] with
      | inr new_ops => inr {| operations := Some new_ops; step_rest := step_rest s |}
      | inl e => inl e
      end
  | None => inr s
  end.

Fixpoint update_steps (op_names : option (list string)) (target_ops : list string)
    (steps : list (step Rest)) : failure + list (step Rest) :=
  match steps with
  | [] => inr []
  | s :: rest =>
      match update_step op_names target_ops s with
      | inr s' =>
          match update_steps op_names target_ops rest with
          | inr rest' => inr (s' :: rest')
          | inl e => inl e
          end
      | inl e => inl e
      end
  end.

Definition update_pipeline (orig_config : config Rest)
    (new_ops_list : option (list operation)) (target_ops : list string)
    : failure + config Rest :=
  let op_names := names_of <$> new_ops_list in
  match pipeline_steps orig_config with
  | Some steps =>
      match update_steps op_names target_ops steps with
      | inr steps' =>
          inr {| pipeline_steps := Some steps'; config_rest := config_rest orig_config |}
      | inl e => inl e
      end
  | None => inr orig_config
  end.

(** The operations a step lists, none when the key is absent. *)
Definition step_ops (s : step Rest) : list string := default [] (operations s).

(** What replaces one operation: the new names for the target, nothing for
    any other. *)
Definition replacement (names : list string) (target op : string) : list string :=
  if String.eqb op target then names else [].

Definition replaced_step (names : list string) (target : string) (s : step Rest)
    : step Rest :=
  {| operations := (λ ops, concat (map (replacement names target) ops)) <$> operations s;
     step_rest := step_rest s |}.

(** A step with its list of operations, when it has one, emptied. *)
Definition emptied_step (s : step Rest) : step Rest :=
  {| operations := (λ _, []) <$> operations s; step_rest := step_rest s |}.

(** The steps of a configuration, none when it has no pipeline steps. *)
Definition steps_of (c : config Rest) : list (step Rest) := default [] (pipeline_steps c).

(** The configuration with its steps, when it has them, rewritten. *)
Definition with_steps (f : step Rest → step Rest) (c : config Rest) : config Rest :=
  {| pipeline_steps := map f <$> pipeline_steps c; config_rest := config_rest c |}.

End Update.
End Pipeline.

(** ** [get_directive_group] *)

Section Directives.

(** [DIRECTIVE_GROUPS], defined outside these sources: the groups in the
    order of the dict, each with the names of its directives. *)
Variable DIRECTIVE_GROUPS : list (string * list string).

Fixpoint find_group (groups : list (string * list string)) (directive_name : string)
    : option string :=
  match groups with
  | [] => None
  | (group_name, directives) :: rest =>
      if existsb (λ directive, String.eqb directive directive_name) directives
      then Some group_name
      else find_group rest directive_name
  end.

Definition get_directive_group (directive_name : string) : option string :=
  find_group DIRECTIVE_GROUPS directive_name.

End Directives.

(** ** [is_fully_explored] *)

Module Search.

(** What the test can raise. *)
Inductive failure := ValueError | OverflowError.

(** A float: a real number, an infinity with its sign, or a NaN.  The two
    zeros are not told apart; the test does not depend on the sign of a
    zero. *)
Inductive float64 := Nan | Inf (negative : bool) | Finite (r : R).

(** The largest finite float, [(2^53 - 1) * 2^971]. *)
Definition max_float : R := IZR (2 ^ 1024 - 2 ^ 971).

(** The attributes of a node the test reads. *)
Record node (Child : Type) := {
  visits : Z;
  children : list Child
}.
Arguments visits {Child} n.
Arguments children {Child} n.

Section Rounding.

(** Rounding of a real number to the nearest number with a significand of
    53 bits, as float arithmetic does before it checks for overflow.  The
    function is left open; the properties name what they use of it. *)
Variable round : R → R.

Definition is_negative (r : R) : bool := if Rlt_dec r 0 then true else false.

(** The float an operation with exact result [x] returns: [x] rounded, or
    an infinity when that is past the largest finite float. *)
Definition rounded (x : R) : float64 :=
  let r := round x in
  if Rlt_dec max_float (Rabs r) then Inf (is_negative r) else Finite r.

(** [float(n)] for an integer [n]: [OverflowError] when [n] is too large to
    be a float. *)
Definition float_of_int (n : Z) : failure + float64 :=
  match rounded (IZR n) with
  | Finite r => inr (Finite r)
  | _ => inl OverflowError
  end.

(** [math.sqrt(x)]: a domain error on a negative argument. *)
Definition math_sqrt (x : float64) : failure + float64 :=
  match x with
  | Nan => inr Nan
  | Inf false => inr (Inf false)
  | Inf true => inl ValueError
  | Finite r => if Rlt_dec r 0 then inl ValueError else inr (Finite (round (sqrt r)))
  end.

(** [x * y] on floats. *)
Definition mul (x y : float64) : float64 :=
  match x, y with
  | Nan, _ => Nan
  | _, Nan => Nan
  | Inf s, Inf t => Inf (xorb s t)
  | Inf s, Finite r => if Req_dec_T r 0 then Nan else Inf (xorb s (is_negative r))
  | Finite r, Inf s => if Req_dec_T r 0 then Nan else Inf (xorb (is_negative r) s)
  | Finite a, Finite b => rounded (a * b)
  end.

(** [math.floor(x)]: no integer for a NaN or an infinity. *)
Definition math_floor (x : float64) : failure + Z :=
  match x with
  | Nan => inl ValueError
  | Inf _ => inl OverflowError
  | Finite r => inr (Int_part r)
  end.

Definition default_max_children_multiplier : float64 := Finite 1.

Definition is_fully_explored {Child} (n : node Child)
    (max_children_multiplier : float64) : failure + bool :=
  match float_of_int (visits n) with
  | inl e => inl e
  | inr visits_as_float =>
      match math_sqrt visits_as_float with
      | inl e => inl e
      | inr root =>
          match math_floor (mul root max_children_multiplier) with
          | inl e => inl e
          | inr floor =>
              let allowed_children := Z.max 2 (1 + floor) in
              inr (allowed_children <=? Z.of_nat (length (children n)))%Z
          end
      end
  end.

(** Rounding keeps the order of the numbers it rounds. *)
Definition round_monotone : Prop := ∀ x y : R, (x <= y)%R → (round x <= round y)%R.

(** Rounding leaves a number [m / 2^k] with [|m| < 2^53] as it is: it has a
    significand of 53 bits. *)
Definition round_exact : Prop :=
  ∀ m k : Z, (Z.abs m < 2 ^ 53)%Z → (0 ≤ k ≤ 1074)%Z →
    round (IZR m / IZR (2 ^ k)) = (IZR m / IZR (2 ^ k))%R.

End Rounding.

End Search.

(** * Properties *)

(** A decidable statement about concrete data, settled by evaluating its
    decision procedure. *)
Ltac decide_by_computation :=
  apply (bool_decide_unpack _); vm_compute; exact I.

(** ** Floats *)

Lemma lt_irrefl a : Float.lt a a = false.
Proof.
  destruct a as [| |q|]; simpl; try reflexivity.
  apply negb_false_iff, Qle_bool_iff. lra.
Qed.

Lemma lt_Fin p q : Float.lt (Fin p) (Fin q) = true ↔ p < q.
Proof.
  simpl. rewrite negb_true_iff. split.
  - intros H. destruct (Qlt_le_dec p q) as [|L]; [assumption|].
    apply Qle_bool_iff in L. congruence.
  - intros H. destruct (Qle_bool q p) eqn:E; [|reflexivity].
    apply Qle_bool_iff in E. lra.
Qed.

Lemma lt_Fin_false p q : Float.lt (Fin p) (Fin q) = false ↔ q <= p.
Proof.
  simpl. rewrite negb_false_iff. apply Qle_bool_iff.
Qed.

Lemma lt_trans a b c :
  Float.lt a b = true → Float.lt b c = true → Float.lt a c = true.
Proof.
  destruct a as [| |p|], b as [| |q|], c as [| |r|];
    try (simpl; congruence).
  rewrite !lt_Fin. lra.
Qed.

Lemma lt_asym a b : Float.lt a b = true → Float.lt b a = false.
Proof.
  intros H. destruct (Float.lt b a) eqn:E; [|reflexivity].
  pose proof (lt_trans _ _ _ H E) as X. rewrite lt_irrefl in X. discriminate.
Qed.

(** Below a bound that something else exceeds: the order is total away
    from NaN. *)
Lemma lt_of_not_lt m n x :
  Float.lt m x = true → Float.lt m n = false → n ≠ NaN → Float.lt n x = true.
Proof.
  destruct m as [| |p|], n as [| |q|], x as [| |r|];
    try (simpl; congruence).
  rewrite !lt_Fin, lt_Fin_false. lra.
Qed.

Lemma Qle_bool_false p q : Qle_bool p q = false ↔ q < p.
Proof.
  split.
  - intros H. destruct (Qlt_le_dec q p) as [|L]; [assumption|].
    apply Qle_bool_iff in L. congruence.
  - intros H. destruct (Qle_bool p q) eqn:E; [|reflexivity].
    apply Qle_bool_iff in E. lra.
Qed.

(** ** Sorting *)

Section SortingFacts.
Context {A : Type} (key : A → Q).

Lemma insert_by_perm x l : Permutation (x :: l) (insert_by key x l).
Proof.
  induction l as [|y l IH]; simpl; [reflexivity|].
  destruct (Qle_bool (key x) (key y)); [reflexivity|].
  rewrite perm_swap. now apply perm_skip.
Qed.

Lemma sorted_by_perm l : Permutation l (sorted_by key l).
Proof.
  induction l as [|x l IH]; simpl; [reflexivity|].
  rewrite <- insert_by_perm. now apply perm_skip.
Qed.

Lemma insert_by_sorted x l :
  StronglySorted (key_le key) l → StronglySorted (key_le key) (insert_by key x l).
Proof.
  induction 1 as [|y l Hs IH Hy]; simpl.
  - repeat constructor.
  - destruct (Qle_bool (key x) (key y)) eqn:E.
    + apply Qle_bool_iff in E. constructor; [now constructor|].
      constructor; [exact E|].
      eapply Forall_impl; [exact Hy|]. unfold key_le. intros a Ha. simpl in Ha. lra.
    + apply Qle_bool_false in E.
      constructor; [exact IH|].
      rewrite <- insert_by_perm. constructor; [|assumption].
      unfold key_le. lra.
Qed.

Lemma sorted_by_sorted l : StronglySorted (key_le key) (sorted_by key l).
Proof.
  induction l as [|x l IH]; simpl; [constructor|].
  now apply insert_by_sorted.
Qed.

Lemma sorted_by_In x l : In x (sorted_by key l) ↔ In x l.
Proof.
  split; apply Permutation_in; [symmetry|]; apply sorted_by_perm.
Qed.

End SortingFacts.

(** ** The step function *)

Lemma step_scan_spec (C : Q) (l : list (float * Q)) (s : float) :
  StronglySorted (key_le snd) l →
  (step_scan C l s = s ∧ ∀ p, In p l → C < p.2) ∨
  (∃ p, In p l ∧ p.2 <= C ∧ (∀ p', In p' l → p'.2 <= C → p'.2 <= p.2) ∧
        step_scan C l s = p.1).
Proof.
  intros Hs. revert s. induction Hs as [|[a c] l Hs IH Hall]; intros s.
  - left. split; [reflexivity|]. intros p [].
  - simpl. destruct (Qle_bool c C) eqn:E.
    + apply Qle_bool_iff in E. right.
      destruct (IH a) as [[Heq Hgt] | (p & Hin & Hle & Hmax & Heq)].
      * exists (a, c). split; [now left|]. split; [exact E|]. split; [|exact Heq].
        intros p' [<- | Hin'] Hle'; simpl; [lra|].
        specialize (Hgt _ Hin'). lra.
      * exists p. split; [now right|]. split; [exact Hle|]. split; [|exact Heq].
        intros p' [<- | Hin'] Hle'; [|now apply Hmax].
        rewrite Forall_forall in Hall. apply (Hall p).
        now apply list_elem_of_In.
    + apply Qle_bool_false in E. left. split; [reflexivity|].
      intros p [<- | Hin]; simpl; [exact E|].
      rewrite Forall_forall in Hall.
      apply list_elem_of_In, Hall in Hin. unfold key_le in Hin. simpl in Hin. lra.
Qed.

(** C4.  The value of the step function at a cost [C] is the accuracy of a
    highest-cost reference point among those of cost at most [C], and 0 when
    every reference point costs more than [C]; the returned distance is the
    absolute difference to that value, and the raw accuracy when the
    reference frontier is empty.  On [(0.6, 10), (0.8, 50)] the values at 5,
    10, 30 and 100 are 0, 0.6, 0.6 and 0.8. *)
Theorem step_function_lookup :
  ∀ (frontier_data : list (float * Q)) (node_acc : float) (C : Q),
    project_to_frontier node_acc C [] = node_acc ∧
    (frontier_data ≠ [] →
       project_to_frontier node_acc C frontier_data
       = Float.abs (Float.sub node_acc (step_value C frontier_data))) ∧
    ((∀ p, In p frontier_data → C < p.2) → step_value C frontier_data = Fin 0) ∧
    ((∃ p, In p frontier_data ∧ p.2 <= C) →
       ∃ p, In p frontier_data ∧ p.2 <= C ∧
            (∀ p', In p' frontier_data → p'.2 <= C → p'.2 <= p.2) ∧
            step_value C frontier_data = p.1) ∧
    (let reference := [(Fin 0.6, 10); (Fin 0.8, 50)] in
     step_value 5 reference = Fin 0 ∧
     step_value 10 reference = Fin 0.6 ∧
     step_value 30 reference = Fin 0.6 ∧
     step_value 100 reference = Fin 0.8).
Proof.
  intros fd acc C.
  pose proof (step_scan_spec C (sorted_by snd fd) (Fin 0) (sorted_by_sorted snd fd))
    as Hspec.
  split; [reflexivity|]. split.
  { intros Hne. destruct fd; [congruence|reflexivity]. }
  split.
  { intros Hall. destruct Hspec as [[Heq _] | (p & Hin & Hle & _)]; [exact Heq|].
    apply sorted_by_In in Hin. specialize (Hall _ Hin). lra. }
  split.
  { intros (p0 & Hin0 & Hle0).
    destruct Hspec as [[_ Hgt] | (p & Hin & Hle & Hmax & Heq)].
    - specialize (Hgt p0 (proj2 (sorted_by_In snd p0 fd) Hin0)). lra.
    - exists p. split; [now apply (sorted_by_In snd)|]. split; [exact Hle|].
      split; [|exact Heq].
      intros p' Hin' Hle'. apply Hmax; [|exact Hle']. now apply sorted_by_In. }
  repeat split; reflexivity.
Qed.

(** ** The UCB1 score *)

Module UCB1Facts.
Import UCB1.

Lemma ln_IZR_nonneg (x : Z) : (1 <= x)%Z → (0 <= ln (IZR x))%R.
Proof.
  intros H. apply IZR_le in H.
  destruct (Rle_lt_or_eq_dec _ _ H) as [Hlt | <-].
  - rewrite <- ln_1. left. apply ln_increasing; lra.
  - rewrite ln_1. lra.
Qed.

Lemma ratio_nonneg (x v : Z) :
  (1 <= x)%Z → (1 <= v)%Z → (0 <= ln (IZR x) / IZR v)%R.
Proof.
  intros Hx Hv. apply ln_IZR_nonneg in Hx. apply IZR_le in Hv.
  apply Rmult_le_pos; [exact Hx|].
  left. apply Rinv_0_lt_compat. lra.
Qed.

Lemma calculate_ucb1_value (n : node) (parent_visits : Z) (c : R) :
  (1 <= visits n)%Z → (1 <= parent_visits)%Z →
  calculate_ucb1 n parent_visits c
  = Ok (Finite (value n / IZR (visits n)
                + c * sqrt (ln (IZR parent_visits) / IZR (visits n)))%R).
Proof.
  intros Hv Hp. unfold calculate_ucb1, truediv, math_log, math_sqrt.
  destruct (Z.eqb_spec (visits n) 0) as [E|_]; [lia|].
  destruct (Z.leb_spec parent_visits 0) as [E|_]; [lia|].
  cbn. destruct (Z.eqb_spec (visits n) 0) as [E|_]; [lia|]. cbn.
  destruct (Rlt_dec _ 0) as [Hneg|_]; [|reflexivity].
  pose proof (ratio_nonneg _ _ Hp Hv). lra.
Qed.

Lemma calculate_ucb1_domain_error (n : node) (parent_visits : Z) (c : R) :
  visits n ≠ 0%Z → (parent_visits <= 0)%Z →
  calculate_ucb1 n parent_visits c = Raise ValueError.
Proof.
  intros Hv Hp. unfold calculate_ucb1, truediv, math_log.
  destruct (Z.eqb_spec (visits n) 0) as [E|_]; [contradiction|].
  destruct (Z.leb_spec parent_visits 0) as [_|E]; [|lia].
  reflexivity.
Qed.

(** C9, as stated, fails: with one visit and a parent that has none the
    call raises instead of returning the value of the formula. *)
Lemma ucb1_formula_fails_without_parent_visits :
  calculate_ucb1 {| value := 0; visits := 1 |} 0 (sqrt 2)
  ≠ Ok (Finite (0 / IZR 1 + sqrt 2 * sqrt (ln (IZR 0) / IZR 1))%R).
Proof.
  rewrite calculate_ucb1_domain_error; [discriminate|simpl; lia|lia].
Qed.

(** C9, amended.  The score of a node with zero visits is positive
    infinity; for a node with at least one visit and a parent with at least
    one visit it is [value / visits + C * sqrt (ln parent_visits / visits)];
    the exploration constant defaults to the square root of 2. *)
Theorem ucb1_score :
  ∀ (n : node) (parent_visits : Z) (c : R),
    (visits n = 0%Z → calculate_ucb1 n parent_visits c = Ok Inf) ∧
    ((1 <= visits n)%Z → (1 <= parent_visits)%Z →
       calculate_ucb1 n parent_visits c
       = Ok (Finite (value n / IZR (visits n)
                     + c * sqrt (ln (IZR parent_visits) / IZR (visits n)))%R)) ∧
    calculate_ucb1_default n parent_visits = calculate_ucb1 n parent_visits (sqrt 2).
Proof.
  intros n pv c. split; [|split].
  - intros E. unfold calculate_ucb1. rewrite E. reflexivity.
  - apply calculate_ucb1_value.
  - reflexivity.
Qed.

Lemma ucb1_score_witness :
  calculate_ucb1 {| value := 3; visits := 0 |} 5 1 = Ok Inf ∧
  calculate_ucb1 {| value := 3; visits := 2 |} 5 1
  = Ok (Finite (3 / IZR 2 + 1 * sqrt (ln (IZR 5) / IZR 2))%R).
Proof.
  split.
  - apply (ucb1_score {| value := 3; visits := 0 |} 5 1); reflexivity.
  - apply (ucb1_score {| value := 3; visits := 2 |} 5 1); simpl; lia.
Defined.

(** C10.  For a node with at least one visit the score is computed exactly
    when the parent has at least one visit: then the logarithm and both
    divisions are defined and a finite score is returned; with a parent
    visit count of 0 (or below) the logarithm raises a domain error and no
    score is returned. *)
Theorem ucb1_defined_iff_parent_visited :
  ∀ (n : node) (parent_visits : Z) (c : R),
    (1 <= visits n)%Z →
    ((1 <= parent_visits)%Z →
       (∃ lg, math_log parent_visits = Ok lg) ∧
       (∃ q, truediv (value n) (visits n) = Ok q) ∧
       ∃ r, calculate_ucb1 n parent_visits c = Ok (Finite r)) ∧
    (parent_visits = 0%Z → calculate_ucb1 n parent_visits c = Raise ValueError) ∧
    ((∃ s, calculate_ucb1 n parent_visits c = Ok s) ↔ (1 <= parent_visits)%Z).
Proof.
  intros n pv c Hv. split; [|split].
  - intros Hp. split; [|split].
    + unfold math_log. destruct (Z.leb_spec pv 0); [lia|]. eauto.
    + unfold truediv. destruct (Z.eqb_spec (visits n) 0); [lia|]. eauto.
    + rewrite calculate_ucb1_value by assumption. eauto.
  - intros ->. apply calculate_ucb1_domain_error; lia.
  - split.
    + intros [s Hs]. destruct (Z_le_gt_dec 1 pv) as [|Hgt]; [assumption|].
      rewrite calculate_ucb1_domain_error in Hs by lia. discriminate.
    + intros Hp. rewrite calculate_ucb1_value by assumption. eauto.
Qed.

Lemma ucb1_defined_iff_parent_visited_witness :
  calculate_ucb1 {| value := 3; visits := 2 |} 0 1 = Raise ValueError ∧
  ∃ r, calculate_ucb1 {| value := 3; visits := 2 |} 5 1 = Ok (Finite r).
Proof.
  split.
  - apply (ucb1_defined_iff_parent_visited {| value := 3; visits := 2 |} 0 1);
      [simpl; lia | reflexivity].
  - apply (ucb1_defined_iff_parent_visited {| value := 3; visits := 2 |} 5 1);
      [simpl; lia | lia].
Defined.

End UCB1Facts.

(** ** The accuracy estimator *)

Section EstimatorFacts.
Variable compare : Node.t → Node.t → result Z.

Lemma collect_estimates_spec self new_node members acc :
  collect_estimates compare self new_node members acc
  = acc ++ successful_estimates compare self new_node members.
Proof.
  revert acc. induction members as [|m members IH]; intros acc; simpl.
  - now rewrite app_nil_r.
  - unfold compare_with, getitem.
    destruct (compare new_node m) as [score|e]; cbn; [|apply IH].
    destruct (plans_accuracy self !! Node.ref m) as [known|]; cbn; [|apply IH].
    rewrite IH, <- app_assoc. reflexivity.
Qed.

Lemma clamp_range x :
  Float.le (Fin 0.1) (Float.max (Fin 0.1) (Float.min (Fin 0.95) x)) ∧
  Float.le (Float.max (Fin 0.1) (Float.min (Fin 0.95) x)) (Fin 0.95).
Proof.
  destruct x as [| |q|]; try (vm_compute; split; discriminate).
  unfold Float.max, Float.min, Float.gt.
  destruct (Float.lt (Fin q) (Fin 0.95)) eqn:E1.
  - destruct (Float.lt (Fin 0.1) (Fin q)) eqn:E2.
    + apply lt_Fin in E1, E2. cbn. lra.
    + cbn. lra.
  - replace (Float.lt (Fin 0.1) (Fin 0.95)) with true by reflexivity. cbn. lra.
Qed.

Lemma eqv_refl x : Float.eqv x x.
Proof. destruct x; simpl; try exact I. reflexivity. Qed.

Lemma clamp_code x :
  x ≠ NaN →
  Float.eqv (Float.max (Fin 0.1) (Float.min (Fin 0.95) x))
            (clamp (Fin 0.1) (Fin 0.95) x).
Proof.
  intros Hx. destruct x as [| |q|]; try (vm_compute; reflexivity); [congruence|].
  unfold Float.max, Float.min, Float.gt, clamp.
  destruct (Float.lt (Fin q) (Fin 0.95)) eqn:E1.
  - rewrite (lt_asym _ _ E1).
    destruct (Float.lt (Fin 0.1) (Fin q)) eqn:E2.
    + rewrite (lt_asym _ _ E2). apply eqv_refl.
    + apply lt_Fin_false in E2.
      destruct (Float.lt (Fin q) (Fin 0.1)) eqn:E3; [apply eqv_refl|].
      apply lt_Fin_false in E3. simpl. lra.
  - apply lt_Fin_false in E1.
    replace (Float.lt (Fin 0.1) (Fin 0.95)) with true by reflexivity.
    destruct (Float.lt (Fin q) (Fin 0.1)) eqn:E3.
    + apply lt_Fin in E3. lra.
    + destruct (Float.lt (Fin 0.95) (Fin q)) eqn:E4; [apply eqv_refl|].
      apply lt_Fin_false in E4. simpl. lra.
Qed.

Lemma successful_estimates_all_fail self new_node members :
  (∀ member, In member members → ∃ e, compare new_node member = Raise e) →
  successful_estimates compare self new_node members = [].
Proof.
  induction members as [|m members IH]; intros Hall; [reflexivity|].
  unfold successful_estimates in *. simpl.
  destruct (Hall m (or_introl eq_refl)) as [e ->].
  apply IH. intros member Hin. apply Hall. now right.
Qed.

Lemma estimate_unfold self new_node :
  estimate_accuracy_via_comparisons compare self new_node
  = match successful_estimates compare self new_node (frontier_plans self) with
    | [] => Fin 0.5
    | _ =>
        Float.max (Fin 0.1)
          (Float.min (Fin 0.95)
             (mean (successful_estimates compare self new_node (frontier_plans self))))
    end.
Proof.
  unfold estimate_accuracy_via_comparisons.
  destruct (frontier_plans self) as [|m members] eqn:E; [reflexivity|].
  rewrite collect_estimates_spec, app_nil_l.
  generalize (successful_estimates compare self new_node (m :: members)).
  now intros [|e es].
Qed.

(** C8.  The estimate always lies in [0.10, 0.95].  It is exactly 0.5 when
    the frontier is empty or when every comparison fails; otherwise it is
    the arithmetic mean of the estimates of the comparisons that went
    through (recorded accuracy of the member plus -0.15, -0.05, 0, +0.05,
    +0.15 for the scores -3, -1, 0, 1, 3), clamped to [0.10, 0.95]; a failed
    comparison is left out of the mean and never propagates. *)
Theorem estimate_accuracy_spec :
  ∀ (self : ParetoFrontier) (new_node : Node.t),
    let estimate := estimate_accuracy_via_comparisons compare self new_node in
    let estimates :=
      successful_estimates compare self new_node (frontier_plans self) in
    (Float.le (Fin 0.1) estimate ∧ Float.le estimate (Fin 0.95)) ∧
    (frontier_plans self = [] → estimate = Fin 0.5) ∧
    ((∀ member, In member (frontier_plans self) →
        ∃ e, compare new_node member = Raise e) → estimate = Fin 0.5) ∧
    (estimates ≠ [] →
       estimate = Float.max (Fin 0.1) (Float.min (Fin 0.95) (mean estimates)) ∧
       (mean estimates ≠ NaN →
          Float.eqv estimate (clamp (Fin 0.1) (Fin 0.95) (mean estimates)))) ∧
    (score_to_adjustment (-3) = Fin (-0.15) ∧
     score_to_adjustment (-1) = Fin (-0.05) ∧
     score_to_adjustment 0 = Fin 0.0 ∧
     score_to_adjustment 1 = Fin 0.05 ∧
     score_to_adjustment 3 = Fin 0.15).
Proof.
  intros self new_node estimate estimates.
  assert (estimate
          = match estimates with
            | [] => Fin 0.5
            | _ => Float.max (Fin 0.1) (Float.min (Fin 0.95) (mean estimates))
            end) as Hunfold by apply estimate_unfold.
  split; [|split; [|split; [|split]]].
  - rewrite Hunfold. destruct estimates; [cbn; lra|apply clamp_range].
  - intros Hnil. subst estimate. unfold estimate_accuracy_via_comparisons.
    now rewrite Hnil.
  - intros Hall. rewrite Hunfold. subst estimates.
    now rewrite successful_estimates_all_fail.
  - intros Hne. rewrite Hunfold. destruct estimates as [|e es]; [congruence|].
    split; [reflexivity|]. apply clamp_code.
  - repeat split; reflexivity.
Qed.

(** A frontier whose single member has accuracy 0.90 and is judged much
    worse than the new plan: the raw estimate 1.05 is clamped to 0.95. *)
Example estimate_clamps_above :
  (∀ a b, compare a b = Ok 3%Z) →
  estimate_accuracy_via_comparisons compare
    {| plans := []; plans_accuracy := {[ 1%nat := Fin 0.90 ]}; plans_cost := ∅;
       frontier_plans := [ {| Node.ref := 1; Node.id := 1; Node.cost := 10;
                              Node.latest_action := None |} ];
       frontier_data := []; action_rewards := ∅; node_distances := ∅;
       on_frontier := ∅ |}
    {| Node.ref := 2; Node.id := 2; Node.cost := 20; Node.latest_action := None |}
  = Fin 0.95.
Proof.
  intros Hcmp. unfold estimate_accuracy_via_comparisons. simpl.
  unfold compare_with. rewrite Hcmp. reflexivity.
Qed.

End EstimatorFacts.

(** ** The frontier update, step by step *)

Lemma bind_Ok {A B} (m : result A) (k : A → result B) (b : B) :
  (m ≫= k) = Ok b → ∃ a, m = Ok a ∧ k a = Ok b.
Proof. destruct m as [a|e]; cbn; [eauto|discriminate]. Qed.

Lemma mapR_Ok {A B} (f : A → result B) (l : list A) (l' : list B) :
  mapR f l = Ok l' → Forall2 (λ x y, f x = Ok y) l l'.
Proof.
  revert l'. induction l as [|x l IH]; intros l' H; simpl in H.
  - injection H as <-. constructor.
  - apply bind_Ok in H as (y & Hy & H). apply bind_Ok in H as (ys & Hys & H).
    injection H as <-. constructor; auto.
Qed.


Lemma sort_by_cost_spec plans_cost nodes sorted :
  sort_by_cost plans_cost nodes = Ok sorted →
  Permutation nodes sorted ∧ StronglySorted (cost_le plans_cost) sorted.
Proof.
  unfold sort_by_cost. intros H.
  apply bind_Ok in H as (keyed & Hk & H). injection H as <-.
  apply mapR_Ok in Hk.
  assert (map snd keyed = nodes ∧
          Forall (λ p, plans_cost !! Node.ref p.2 = Some p.1) keyed) as [Hsnd Hrec].
  { induction Hk as [|n p l l' Hp Hk IH]; [split; constructor|].
    destruct IH as [IH1 IH2].
    apply bind_Ok in Hp as (c & Hc & Hp). injection Hp as <-.
    unfold getitem in Hc. destruct (plans_cost !! Node.ref n) eqn:E; [|discriminate].
    injection Hc as ->. split; [simpl; congruence|]. constructor; assumption. }
  split.
  - rewrite <- Hsnd. apply Permutation_map, sorted_by_perm.
  - assert (Forall (λ p, plans_cost !! Node.ref p.2 = Some p.1) (sorted_by fst keyed))
      as Hrec'.
    { rewrite List.Forall_forall in *. intros p Hp. apply Hrec.
      now apply (sorted_by_In fst p keyed). }
    pose proof (sorted_by_sorted fst keyed) as Hs.
    induction Hs as [|p l Hs IH Hall]; [constructor|].
    inversion Hrec' as [|? ? Hp Hl]; subst.
    simpl. constructor; [now apply IH|].
    rewrite List.Forall_forall in *. intros n Hn.
    apply in_map_iff in Hn as (q & <- & Hq).
    exists p.1, q.1. split; [exact Hp|]. split; [now apply Hl|]. now apply Hall.
Qed.

Lemma scan_frontier_subset plans_accuracy nodes m x :
  In x (scan_frontier plans_accuracy nodes m) → In x nodes.
Proof.
  revert m. induction nodes as [|n nodes IH]; intros m; simpl; [tauto|].
  destruct (Float.gt _ m); simpl; intros H.
  - destruct H as [->|H]; [now left|right; eauto].
  - right; eauto.
Qed.

(** A successful update, unfolded into its stages. *)
Lemma update_inv self new_node self' affected updated :
  update_pareto_frontier_HV self new_node = Ok (self', affected, updated) →
  valid_plans self ≠ [] →
  ∃ sorted archive new_data out,
    sort_by_cost (plans_cost self) (valid_plans self) = Ok sorted ∧
    reconstruct_old_frontier self (frontier_plans self) sorted = Ok archive ∧
    frontier_points self (scan_frontier (plans_accuracy self) sorted NInf)
      = Ok new_data ∧
    foldR (reward_step self new_node (node_set (frontier_plans self))
             (node_set (scan_frontier (plans_accuracy self) sorted NInf))
             archive new_data)
          (rewards_init self) sorted = Ok out ∧
    self' = {| plans := plans self; plans_accuracy := plans_accuracy self;
               plans_cost := plans_cost self;
               frontier_plans := scan_frontier (plans_accuracy self) sorted NInf;
               frontier_data := new_data;
               action_rewards := r_action_rewards out;
               node_distances := r_node_distances out;
               on_frontier := r_on_frontier out |} ∧
    affected = affected_nodes out ∧
    updated = bool_decide (node_set (frontier_plans self)
                           ≠ node_set (scan_frontier (plans_accuracy self) sorted NInf)).
Proof.
  unfold update_pareto_frontier_HV, valid_plans. intros H Hne.
  destruct (filter _ (plans self)) as [|v vs] eqn:Ev; [congruence|].
  apply bind_Ok in H as (sorted & Hs & H).
  apply bind_Ok in H as (archive & Ha & H).
  apply bind_Ok in H as (new_data & Hd & H).
  apply bind_Ok in H as (out & Ho & H).
  injection H as <- <- <-.
  exists sorted, archive, new_data, out. auto 10.
Qed.

Lemma valid_plans_cases self : valid_plans self = [] ∨ valid_plans self ≠ [].
Proof. destruct (valid_plans self); [left|right]; congruence. Qed.

Lemma update_no_valid self new_node :
  valid_plans self = [] →
  update_pareto_frontier_HV self new_node
  = Ok ({| plans := plans self; plans_accuracy := plans_accuracy self;
           plans_cost := plans_cost self;
           frontier_plans := []; frontier_data := [];
           action_rewards := action_rewards self;
           node_distances := node_distances self;
           on_frontier := on_frontier self |}, ∅, false).
Proof.
  unfold update_pareto_frontier_HV, valid_plans. now intros ->.
Qed.

(** ** The linear scan *)

Section Scan.
Variable accuracy_of : gmap nat float.
Variable costs : gmap nat Q.

Lemma scan_frontier_cons n nodes m :
  scan_frontier accuracy_of (n :: nodes) m
  = if Float.lt m (scan_accuracy accuracy_of n)
    then n :: scan_frontier accuracy_of nodes (scan_accuracy accuracy_of n)
    else scan_frontier accuracy_of nodes m.
Proof. reflexivity. Qed.

Lemma scan_frontier_above nodes m x :
  In x (scan_frontier accuracy_of nodes m) →
  Float.lt m (scan_accuracy accuracy_of x) = true.
Proof.
  revert m. induction nodes as [|n nodes IH]; intros m; [intros []|].
  rewrite scan_frontier_cons.
  destruct (Float.lt m (scan_accuracy accuracy_of n)) eqn:E; [|apply IH].
  intros [->|Hx]; [exact E|].
  eapply lt_trans; [exact E|now apply IH].
Qed.

Lemma scan_frontier_sorted nodes m :
  StronglySorted (cost_le costs) nodes →
  StronglySorted (climbs accuracy_of costs) (scan_frontier accuracy_of nodes m).
Proof.
  intros Hs. revert m. induction Hs as [|n nodes Hs IH Hn]; intros m.
  - constructor.
  - rewrite scan_frontier_cons.
    destruct (Float.lt m (scan_accuracy accuracy_of n)) eqn:E; [|apply IH].
    constructor; [apply IH|].
    rewrite List.Forall_forall in *. intros x Hx. split.
    + apply Hn. eapply scan_frontier_subset, Hx.
    + eapply scan_frontier_above, Hx.
Qed.

Lemma scan_frontier_prefix nodes m x :
  In x (scan_frontier accuracy_of nodes m) →
  ∃ l1 l2, nodes = l1 ++ x :: l2 ∧
           ∀ p, In p l1 → scan_accuracy accuracy_of p ≠ NaN →
                Float.lt (scan_accuracy accuracy_of p) (scan_accuracy accuracy_of x)
                = true.
Proof.
  revert m. induction nodes as [|n nodes IH]; intros m; [intros []|].
  rewrite scan_frontier_cons.
  destruct (Float.lt m (scan_accuracy accuracy_of n)) eqn:E.
  - intros [->|Hx].
    + exists [], nodes. split; [reflexivity|]. intros p [].
    + destruct (IH _ Hx) as (l1 & l2 & Heq & Hl1).
      exists (n :: l1), l2. split; [simpl; congruence|].
      intros p [<-|Hp] Hnan; [|now apply Hl1].
      eapply scan_frontier_above, Hx.
  - intros Hx. destruct (IH _ Hx) as (l1 & l2 & Heq & Hl1).
    exists (n :: l1), l2. split; [simpl; congruence|].
    intros p [<-|Hp] Hnan; [|now apply Hl1].
    eapply lt_of_not_lt; [eapply scan_frontier_above, Hx|exact E|exact Hnan].
Qed.

End Scan.

Lemma StronglySorted_after {A} (R : A → A → Prop) l1 x l2 :
  StronglySorted R (l1 ++ x :: l2) → Forall (R x) l2.
Proof.
  induction l1 as [|y l1 IH]; simpl; intros H; inversion H; subst; auto.
Qed.

Lemma StronglySorted_pair {A} (R : A → A → Prop) l a b :
  StronglySorted R l → In a l → In b l → a = b ∨ R a b ∨ R b a.
Proof.
  induction 1 as [|x l Hs IH Hx]; [intros []|].
  rewrite List.Forall_forall in Hx.
  intros [->|Ha] [->|Hb]; auto.
Qed.

(** ** The frontier after an update *)

Lemma add_plan_f1_valid self node accuracy :
  is_failure node = false →
  add_plan_f1 self node accuracy
  = update_pareto_frontier_HV (stored self node accuracy) node.
Proof. unfold add_plan_f1. now intros ->. Qed.

Lemma valid_plans_stored self node accuracy :
  is_failure node = false →
  valid_plans (stored self node accuracy) = valid_plans self ++ [node].
Proof.
  intros H. unfold valid_plans, stored. simpl.
  rewrite filter_app. f_equal. rewrite filter_cons_True by exact H. reflexivity.
Qed.

Lemma update_frontier_invariant self new_node self' affected updated :
  update_pareto_frontier_HV self new_node = Ok (self', affected, updated) →
  monotone_frontier self' ∧ no_cheaper_better_plan self'.
Proof.
  intros H. destruct (valid_plans self) as [|v vs] eqn:Ev.
  { rewrite update_no_valid in H by exact Ev. injection H as <- <- <-.
    split; intros ? ? ? ? ? ? []. }
  apply update_inv in H
    as (sorted & archive & new_data & out & Hs & _ & _ & _ & -> & _ & _);
    [|congruence].
  apply sort_by_cost_spec in Hs as [Hperm Hsorted].
  split.
  - intros a b ca cb xa xb Ha Hb Hca Hcb Hxa Hxb Hlt. simpl in *.
    pose proof (scan_frontier_sorted (plans_accuracy self) (plans_cost self)
                  sorted NInf Hsorted) as Hclimb.
    destruct (StronglySorted_pair _ _ a b Hclimb Ha Hb)
      as [-> | [[_ Hab] | [(c1 & c2 & H1 & H2 & Hle) _]]].
    + rewrite Hca in Hcb. injection Hcb as <-. lra.
    + unfold scan_accuracy in Hab. now rewrite Hxa, Hxb in Hab.
    + rewrite Hcb in H1. rewrite Hca in H2.
      injection H1 as <-. injection H2 as <-. lra.
  - intros m p cm cp xm xp Hm Hp Hcm Hcp Hxm Hxp Hlt. simpl in *.
    unfold valid_plans in Hp. simpl in Hp. fold (valid_plans self) in Hp.
    destruct (scan_frontier_prefix (plans_accuracy self) sorted NInf m Hm)
      as (l1 & l2 & Heq & Hl1).
    assert (In p l1) as Hpl1.
    { assert (In p sorted) as Hps by (eapply Permutation_in; eassumption).
      rewrite Heq in Hps. apply in_app_or in Hps as [Hin | [-> | Hin]]; [exact Hin| |].
      - rewrite Hcm in Hcp. injection Hcp as <-. lra.
      - rewrite Heq in Hsorted. apply StronglySorted_after in Hsorted.
        rewrite List.Forall_forall in Hsorted.
        destruct (Hsorted _ Hin) as (c1 & c2 & H1 & H2 & Hle).
        rewrite Hcm in H1. rewrite Hcp in H2.
        injection H1 as <-. injection H2 as <-. lra. }
    specialize (Hl1 p Hpl1). unfold scan_accuracy in Hl1.
    rewrite Hxm, Hxp in Hl1. simpl in Hl1. split.
    + unfold Float.gt. destruct xp; try (now apply lt_asym, Hl1).
      now destruct xm.
    + exact Hl1.
Qed.

(** C1, as stated, fails: after ingesting two plans of cost 10, the first
    of accuracy 0.6 and the second of accuracy 0.9, both are on the
    frontier, and the second costs no more than the first while being
    strictly more accurate. *)
Lemma equal_cost_plan_dominates_frontier_member :
  ∃ self', ingest_all (init ∅) [(plan_a, Fin 0.6); (plan_b, Fin 0.9)] = Ok self' ∧
           ¬ no_dominating_plan self'.
Proof.
  eexists. split; [vm_compute; reflexivity|].
  intros H.
  specialize (H plan_a plan_b 10 10 (Fin 0.6) (Fin 0.9)).
  assert (Float.gt (Fin 0.9) (Fin 0.6) = false) as Habs.
  { apply H; try reflexivity; try lra; simpl; auto. }
  discriminate Habs.
Qed.

(** C1, amended.  After every accepted ingestion the recomputed frontier is
    monotone (of two members, the one that costs strictly more is strictly
    more accurate), and no valid plan that costs strictly less than a
    frontier member is more accurate than it: such a plan is strictly less
    accurate, so a costlier plan of equal accuracy is never admitted. *)
Theorem frontier_invariant_after_ingestion :
  ∀ (self : ParetoFrontier) (node : Node.t) (accuracy : float)
    (self' : ParetoFrontier) (affected : gmap nat float) (updated : bool),
    is_failure node = false →
    add_plan_f1 self node accuracy = Ok (self', affected, updated) →
    monotone_frontier self' ∧ no_cheaper_better_plan self'.
Proof.
  intros self node accuracy self' affected updated Hvalid H.
  rewrite add_plan_f1_valid in H by exact Hvalid.
  eapply update_frontier_invariant, H.
Qed.

Lemma frontier_invariant_after_ingestion_witness :
  ∃ self' affected updated,
    add_plan_f1 (engine_after [(plan_a, Fin 0.6)]) plan_c (Fin 0.9)
    = Ok (self', affected, updated) ∧
    monotone_frontier self' ∧ no_cheaper_better_plan self'.
Proof.
  assert (∃ r, add_plan_f1 (engine_after [(plan_a, Fin 0.6)]) plan_c (Fin 0.9) = Ok r)
    as [[[self' affected] updated] H] by (eexists; vm_compute; reflexivity).
  exists self', affected, updated. split; [exact H|].
  apply (frontier_invariant_after_ingestion
           (engine_after [(plan_a, Fin 0.6)]) plan_c (Fin 0.9) self' affected updated);
    [reflexivity|exact H].
Defined.

(** ** The reward loop *)

Section Loop.
Variable self : ParetoFrontier.
Variable new_node : Node.t.
Variables old_set new_set : gset nat.
Variables archive data : list (float * Q).

Lemma reward_step_inv st n st' :
  reward_step self new_node old_set new_set archive data st n = Ok st' →
  ∃ c a, plans_cost self !! Node.ref n = Some c ∧
         plans_accuracy self !! Node.ref n = Some a ∧
         st' = reward_branches new_node old_set new_set archive data st n c a.
Proof.
  unfold reward_step, getitem. intros H.
  destruct (plans_cost self !! Node.ref n) as [c|]; [|discriminate].
  destruct (plans_accuracy self !! Node.ref n) as [a|]; [|discriminate].
  injection H as <-. eauto.
Qed.

Lemma reward_branches_other st n c a r :
  r ≠ Node.ref n →
  affected_nodes (reward_branches new_node old_set new_set archive data st n c a) !! r
  = affected_nodes st !! r ∧
  r_node_distances (reward_branches new_node old_set new_set archive data st n c a) !! r
  = r_node_distances st !! r.
Proof.
  intros Hne. unfold reward_branches.
  repeat match goal with
         | |- context [if ?b then _ else _] => destruct b
         end; simpl; rewrite ?lookup_insert_ne by congruence; auto.
Qed.

Lemma loop_frame l st out r :
  foldR (reward_step self new_node old_set new_set archive data) st l = Ok out →
  ¬ In r (map Node.ref l) →
  affected_nodes out !! r = affected_nodes st !! r ∧
  r_node_distances out !! r = r_node_distances st !! r.
Proof.
  revert st. induction l as [|x l IH]; intros st H Hr; simpl in H.
  - injection H as <-. auto.
  - apply bind_Ok in H as (st2 & Hstep & H).
    apply reward_step_inv in Hstep as (c & a & _ & _ & ->).
    simpl in Hr.
    destruct (IH _ H) as [H1 H2]; [tauto|].
    destruct (reward_branches_other st x c a r) as [H3 H4].
    { intros E. apply Hr. left. congruence. }
    split; congruence.
Qed.

Lemma loop_hit l st out n :
  foldR (reward_step self new_node old_set new_set archive data) st l = Ok out →
  List.NoDup (map Node.ref l) → In n l →
  ∃ st1 c a,
    plans_cost self !! Node.ref n = Some c ∧
    plans_accuracy self !! Node.ref n = Some a ∧
    affected_nodes st1 !! Node.ref n = affected_nodes st !! Node.ref n ∧
    r_node_distances st1 !! Node.ref n = r_node_distances st !! Node.ref n ∧
    affected_nodes out !! Node.ref n
    = affected_nodes (reward_branches new_node old_set new_set archive data st1 n c a)
        !! Node.ref n ∧
    r_node_distances out !! Node.ref n
    = r_node_distances (reward_branches new_node old_set new_set archive data st1 n c a)
        !! Node.ref n.
Proof.
  revert st. induction l as [|x l IH]; intros st H Hnd Hn; [destruct Hn|].
  simpl in H, Hnd. apply List.NoDup_cons_iff in Hnd as [Hx Hnd].
  apply bind_Ok in H as (st2 & Hstep & H).
  apply reward_step_inv in Hstep as (c & a & Hc & Ha & ->).
  destruct Hn as [->|Hn].
  - exists st, c, a. destruct (loop_frame _ _ _ _ H Hx) as [H1 H2]. auto 10.
  - destruct (IH _ H Hnd Hn) as (st1 & c1 & a1 & Hc1 & Ha1 & E1 & E2 & E3 & E4).
    assert (Node.ref n ≠ Node.ref x) as Hne.
    { intros E. apply Hx. rewrite <- E. now apply in_map. }
    destruct (reward_branches_other st x c a _ Hne) as [H3 H4].
    exists st1, c1, a1. repeat split; congruence.
Qed.

Lemma loop_action_rewards l st out :
  foldR (reward_step self new_node old_set new_set archive data) st l = Ok out →
  r_action_rewards out
  = foldl (λ sink node,
             if credited old_set new_set new_node node
             then _update_action_rewards sink node
                    (node_reward self old_set new_set archive data node)
             else sink)
          (r_action_rewards st) l.
Proof.
  revert st. induction l as [|x l IH]; intros st H; simpl in H.
  - now injection H as <-.
  - apply bind_Ok in H as (st2 & Hstep & H).
    apply reward_step_inv in Hstep as (c & a & Hc & Ha & ->).
    rewrite (IH _ H). simpl. f_equal.
    unfold reward_branches, credited, node_reward, newly_on.
    rewrite Hc, Ha. simpl.
    destruct (bool_decide (Node.ref x ∈ new_set)),
             (bool_decide (Node.ref x ∈ old_set)),
             (Z.eqb (Node.id x) (Node.id new_node)); reflexivity.
Qed.

End Loop.

(** ** Membership by identity *)

Lemma node_in_spec node nodes :
  node_in node nodes = true ↔ ∃ other, In other nodes ∧ Node.ref other = Node.ref node.
Proof.
  unfold node_in. rewrite existsb_exists. split.
  - intros (other & Hin & E). apply Nat.eqb_eq in E. eauto.
  - intros (other & Hin & E). exists other. split; [exact Hin|]. now apply Nat.eqb_eq.
Qed.

Lemma node_in_perm node l l' :
  Permutation l l' → node_in node l = node_in node l'.
Proof.
  intros Hp. apply eq_true_iff_eq. rewrite !node_in_spec.
  split; intros (other & Hin & E); exists other; split; auto.
  - eapply Permutation_in; eauto.
  - eapply Permutation_in; [symmetry; exact Hp|exact Hin].
Qed.

Lemma filter_ext_in {A} (P Q : A → Prop) `{∀ x, Decision (P x)} `{∀ x, Decision (Q x)}
    (l : list A) :
  (∀ x, In x l → (P x ↔ Q x)) → filter P l = filter Q l.
Proof.
  induction l as [|x l IH]; intros Hl; [reflexivity|].
  assert (filter P l = filter Q l) as IH' by (apply IH; intros; apply Hl; now right).
  destruct (decide (P x)) as [Hp|Hp].
  - rewrite !filter_cons_True; [congruence| |exact Hp]. apply Hl; [now left|exact Hp].
  - rewrite !filter_cons_False; [exact IH'| |exact Hp].
    intros Hq. apply Hp, Hl; [now left|exact Hq].
Qed.

Lemma reconstruct_old_frontier_perm self old l l' :
  Permutation l l' →
  reconstruct_old_frontier self old l = reconstruct_old_frontier self old l'.
Proof.
  intros Hp. unfold reconstruct_old_frontier. f_equal.
  apply filter_ext_in. intros x _. now rewrite (node_in_perm x l l' Hp).
Qed.

(** ** The action-reward sink *)

Lemma filter_none {A} (P : A → Prop) `{∀ x, Decision (P x)} (l : list A) :
  (∀ x, In x l → ¬ P x) → filter P l = [].
Proof.
  induction l as [|x l IH]; intros Hl; [reflexivity|].
  rewrite filter_cons_False by (apply Hl; now left).
  apply IH. intros y Hy. apply Hl. now right.
Qed.

Lemma update_action_rewards_lookup sink node reward action :
  _update_action_rewards sink node reward !! action
  = (λ total, if bool_decide (Node.latest_action node = Some action)
              then Float.add total reward else total) <$> (sink !! action).
Proof.
  unfold _update_action_rewards.
  destruct (Node.latest_action node) as [own|] eqn:E.
  - destruct (Nat.eqb_spec (size sink) 0) as [Hsize|_].
    + apply map_size_empty_iff in Hsize. subst sink.
      now rewrite lookup_empty.
    + destruct (decide (own = action)) as [->|Hne].
      * rewrite bool_decide_eq_true_2 by reflexivity.
        destruct (sink !! action) as [total|] eqn:Ek; simpl.
        -- now rewrite lookup_insert_eq.
        -- now rewrite Ek.
      * rewrite bool_decide_eq_false_2 by congruence.
        destruct (sink !! own) as [total|] eqn:Ek.
        -- rewrite lookup_insert_ne by exact Hne. now destruct (sink !! action).
        -- now destruct (sink !! action).
  - rewrite bool_decide_eq_false_2 by congruence. now destruct (sink !! action).
Qed.

Section Sink.
Variable self : ParetoFrontier.
Variable new_node : Node.t.
Variables old_set new_set : gset nat.
Variables archive data : list (float * Q).

Lemma credits_lookup nodes sink action :
  foldl (λ sink node,
           if credited old_set new_set new_node node
           then _update_action_rewards sink node
                  (node_reward self old_set new_set archive data node)
           else sink)
        sink nodes !! action
  = (λ total, foldl Float.add total
                (rewards_for self old_set new_set archive data new_node action nodes))
    <$> (sink !! action).
Proof.
  revert sink. induction nodes as [|x nodes IH]; intros sink; simpl.
  - now destruct (sink !! action).
  - rewrite IH. unfold rewards_for at 2.
    destruct (credited old_set new_set new_node x) eqn:Ec.
    + rewrite update_action_rewards_lookup.
      destruct (decide (Node.latest_action x = Some action)) as [Ha|Ha].
      * rewrite bool_decide_eq_true_2 by exact Ha.
        rewrite filter_cons_True by (split; [exact Ec|exact Ha]).
        now destruct (sink !! action).
      * rewrite bool_decide_eq_false_2 by exact Ha.
        rewrite filter_cons_False by tauto.
        now destruct (sink !! action).
    + rewrite filter_cons_False by (intros [? _]; congruence).
      reflexivity.
Qed.

End Sink.

(** C7.  In a frontier update the action-reward sink changes only at the
    actions of the credited plans (the just-inserted plan and the plans that
    join the frontier) and only at keys it already holds: the entry of such
    an action grows by the rewards of the credited plans that carry it, no
    key is added or removed, and every other entry is left as it was; plans
    that fall off or stay off the frontier (and are not the just-inserted
    plan) contribute nothing. *)
Theorem action_rewards_frame :
  ∀ (self : ParetoFrontier) (new_node : Node.t) (self' : ParetoFrontier)
    (affected : gmap nat float) (updated : bool),
    update_pareto_frontier_HV self new_node = Ok (self', affected, updated) →
    let old_set := node_set (frontier_plans self) in
    let new_set := node_set (frontier_plans self') in
    ∃ sorted archive,
      Permutation (valid_plans self) sorted ∧
      (valid_plans self ≠ [] →
         reconstruct_old_frontier self (frontier_plans self) (valid_plans self)
         = Ok archive) ∧
      (∀ action,
         action_rewards self' !! action
         = (λ total,
              foldl Float.add total
                (rewards_for self old_set new_set archive (frontier_data self')
                   new_node action sorted))
           <$> (action_rewards self !! action)) ∧
      dom (action_rewards self') = dom (action_rewards self) ∧
      (∀ action,
         (∀ node, In node (valid_plans self) →
                  credited old_set new_set new_node node = true →
                  Node.latest_action node ≠ Some action) →
         action_rewards self' !! action = action_rewards self !! action).
Proof.
  intros self new_node self' affected updated H old_set new_set.
  assert (∃ sorted archive,
      Permutation (valid_plans self) sorted ∧
      (valid_plans self ≠ [] →
         reconstruct_old_frontier self (frontier_plans self) (valid_plans self)
         = Ok archive) ∧
      (∀ action,
         action_rewards self' !! action
         = (λ total,
              foldl Float.add total
                (rewards_for self old_set new_set archive (frontier_data self')
                   new_node action sorted))
           <$> (action_rewards self !! action)))
    as (sorted & archive & Hperm & Harch & Hmain).
  { destruct (valid_plans self) as [|v vs] eqn:Ev.
    - rewrite update_no_valid in H by exact Ev. injection H as <- <- <-.
      exists [], []. split; [constructor|]. split; [congruence|].
      intros action. simpl. now destruct (action_rewards self !! action).
    - apply update_inv in H
        as (sorted & archive & new_data & out & Hs & Ha & _ & Hloop & -> & _ & _);
        [|congruence].
      apply sort_by_cost_spec in Hs as [Hperm _].
      rewrite <- (reconstruct_old_frontier_perm _ _ _ _ Hperm) in Ha.
      rewrite Ev in Hperm, Ha.
      exists sorted, archive. split; [exact Hperm|]. split; [auto|].
      intros action. subst old_set new_set. simpl.
      rewrite (loop_action_rewards _ _ _ _ _ _ _ _ _ Hloop). apply credits_lookup. }
  exists sorted, archive. split; [exact Hperm|]. split; [exact Harch|].
  split; [exact Hmain|]. split.
  - apply set_eq. intros action. rewrite !elem_of_dom, Hmain.
    now rewrite fmap_is_Some.
  - intros action Hnone. rewrite Hmain.
    assert (rewards_for self old_set new_set archive (frontier_data self')
              new_node action sorted = []) as ->.
    { unfold rewards_for.
      rewrite filter_none; [reflexivity|]. intros node Hin [Hc Ha].
      eapply Hnone; [|exact Hc|exact Ha].
      eapply Permutation_in; [symmetry; exact Hperm|exact Hin]. }
    simpl. now destruct (action_rewards self !! action).
Qed.

Lemma action_rewards_frame_witness :
  ∃ self' affected updated,
    update_pareto_frontier_HV
      (stored (engine_after [(plan_a, Fin 0.6)]) plan_c (Fin 0.9)) plan_c
    = Ok (self', affected, updated) ∧
    dom (action_rewards self')
    = dom (action_rewards (stored (engine_after [(plan_a, Fin 0.6)]) plan_c (Fin 0.9))).
Proof.
  assert (∃ r, update_pareto_frontier_HV
                 (stored (engine_after [(plan_a, Fin 0.6)]) plan_c (Fin 0.9)) plan_c
               = Ok r)
    as [[[self' affected] updated] H] by (eexists; vm_compute; reflexivity).
  exists self', affected, updated. split; [exact H|].
  destruct (action_rewards_frame _ _ _ _ _ H) as (sorted & archive & _ & _ & _ & Hdom & _).
  exact Hdom.
Defined.

(** ** The reward of each plan *)

Lemma update_entry self new_node self' affected updated node :
  update_pareto_frontier_HV self new_node = Ok (self', affected, updated) →
  List.NoDup (map Node.ref (valid_plans self)) →
  In node (valid_plans self) →
  ∃ archive c a st1,
    reconstruct_old_frontier self (frontier_plans self) (valid_plans self) = Ok archive ∧
    plans_cost self !! Node.ref node = Some c ∧
    plans_accuracy self !! Node.ref node = Some a ∧
    affected_nodes st1 !! Node.ref node = None ∧
    r_node_distances st1 !! Node.ref node = node_distances self !! Node.ref node ∧
    affected !! Node.ref node
    = affected_nodes
        (reward_branches new_node (node_set (frontier_plans self))
           (node_set (frontier_plans self')) archive (frontier_data self')
           st1 node c a) !! Node.ref node ∧
    node_distances self' !! Node.ref node
    = r_node_distances
        (reward_branches new_node (node_set (frontier_plans self))
           (node_set (frontier_plans self')) archive (frontier_data self')
           st1 node c a) !! Node.ref node.
Proof.
  intros H Hnd Hin.
  apply update_inv in H
    as (sorted & archive & new_data & out & Hs & Ha & _ & Hloop & -> & -> & _).
  2: { intros E. rewrite E in Hin. destruct Hin. }
  apply sort_by_cost_spec in Hs as [Hperm _].
  assert (List.NoDup (map Node.ref sorted)) as Hnd'.
  { eapply Permutation_NoDup; [|exact Hnd]. now apply Permutation_map. }
  assert (In node sorted) as Hin' by (eapply Permutation_in; eassumption).
  destruct (loop_hit _ _ _ _ _ _ _ _ _ _ Hloop Hnd' Hin')
    as (st1 & c & a & Hc & Hacc & E1 & E2 & E3 & E4).
  exists archive, c, a, st1. simpl.
  rewrite (reconstruct_old_frontier_perm _ _ _ _ Hperm).
  simpl in E1. rewrite lookup_empty in E1. auto 10.
Qed.

Section Branches.
Variable new_node : Node.t.
Variables old_set new_set : gset nat.
Variables archive data : list (float * Q).


Lemma branches_newly_off st n c a :
  ¬ (Node.ref n ∈ new_set ∧ Node.ref n ∉ old_set) →
  ((Node.ref n ∉ new_set) ∧ Node.ref n ∈ old_set) ∨ Node.id n = Node.id new_node →
  affected_nodes (reward_branches new_node old_set new_set archive data st n c a)
    !! Node.ref n = Some (Float.neg (project_to_frontier a c data)) ∧
  r_node_distances (reward_branches new_node old_set new_set archive data st n c a)
    !! Node.ref n = Some (Float.neg (project_to_frontier a c data)).
Proof.
  intros Hnot Hoff. unfold reward_branches.
  destruct (decide (Node.ref n ∈ new_set)) as [Hnew|Hnew],
           (decide (Node.ref n ∈ old_set)) as [Hold|Hold];
    rewrite ?(bool_decide_eq_true_2 _ Hnew), ?(bool_decide_eq_false_2 _ Hnew),
            ?(bool_decide_eq_true_2 _ Hold), ?(bool_decide_eq_false_2 _ Hold);
    simpl; try tauto;
    try (destruct Hoff as [[? ?]|Hid]; [tauto|];
         apply Z.eqb_eq in Hid; rewrite Hid; simpl);
    now rewrite !lookup_insert_eq.
Qed.

Lemma branches_stays_off st n c a :
  Node.ref n ∉ new_set → Node.ref n ∉ old_set → Node.id n ≠ Node.id new_node →
  affected_nodes (reward_branches new_node old_set new_set archive data st n c a)
    !! Node.ref n
  = Some (Float.sub (Float.neg (project_to_frontier a c data))
            (default (Fin 0) (r_node_distances st !! Node.ref n))) ∧
  r_node_distances (reward_branches new_node old_set new_set archive data st n c a)
    !! Node.ref n = Some (Float.neg (project_to_frontier a c data)).
Proof.
  intros Hnew Hold Hid. unfold reward_branches. apply Z.eqb_neq in Hid.
  rewrite (bool_decide_eq_false_2 _ Hnew), (bool_decide_eq_false_2 _ Hold), Hid.
  simpl. now rewrite !lookup_insert_eq.
Qed.

Lemma branches_stays_on st n c a :
  Node.ref n ∈ new_set → Node.ref n ∈ old_set → Node.id n ≠ Node.id new_node →
  reward_branches new_node old_set new_set archive data st n c a = st.
Proof.
  intros Hnew Hold Hid. unfold reward_branches. apply Z.eqb_neq in Hid.
  now rewrite (bool_decide_eq_true_2 _ Hnew), (bool_decide_eq_true_2 _ Hold), Hid.
Qed.

End Branches.




(** ** Plans stored more than once *)

Section LoopRepeats.
Variable self : ParetoFrontier.
Variable new_node : Node.t.
Variables old_set new_set : gset nat.
Variables archive data : list (float * Q).



End LoopRepeats.



Lemma stays_off_entry self new_node self' affected updated node :
  update_pareto_frontier_HV self new_node = Ok (self', affected, updated) →
  List.NoDup (map Node.ref (valid_plans self)) →
  In node (valid_plans self) →
  Node.ref node ∉ node_set (frontier_plans self) →
  Node.ref node ∉ node_set (frontier_plans self') →
  Node.id node ≠ Node.id new_node →
  ∃ c a,
    plans_cost self !! Node.ref node = Some c ∧
    plans_accuracy self !! Node.ref node = Some a ∧
    affected !! Node.ref node
    = Some (Float.sub (Float.neg (project_to_frontier a c (frontier_data self')))
              (default (Fin 0) (node_distances self !! Node.ref node))) ∧
    node_distances self' !! Node.ref node
    = Some (Float.neg (project_to_frontier a c (frontier_data self'))).
Proof.
  intros H Hnd Hin Hold Hnew Hid.
  destruct (update_entry _ _ _ _ _ _ H Hnd Hin)
    as (archive & c & a & st1 & Harch & Hc & Ha & E1 & E2 & E3 & E4).
  exists c, a. split; [exact Hc|]. split; [exact Ha|].
  destruct (branches_stays_off new_node _ _ archive (frontier_data self')
              st1 node c a Hnew Hold Hid) as [B1 B2].
  rewrite E2 in B1. rewrite <- E3 in B1. rewrite <- E4 in B2. auto.
Qed.

Lemma sub_recorded_zero recorded_distance credit :
  Float.eqv recorded_distance credit → Float.is_finite recorded_distance →
  Float.eqv (Float.sub credit recorded_distance) (Fin 0).
Proof.
  destruct recorded_distance as [| |q|]; try contradiction.
  destruct credit as [| |q'|]; try contradiction.
  simpl. intros Heqv _. lra.
Qed.




(** After an update, every valid plan off the new frontier has minus its
    distance to the new step function on record. *)
Lemma recorded_after_update self new_node self' affected updated node :
  update_pareto_frontier_HV self new_node = Ok (self', affected, updated) →
  List.NoDup (map Node.ref (valid_plans self)) →
  In node (valid_plans self) →
  Node.ref node ∉ node_set (frontier_plans self') →
  ∃ c a,
    plans_cost self !! Node.ref node = Some c ∧
    plans_accuracy self !! Node.ref node = Some a ∧
    node_distances self' !! Node.ref node
    = Some (Float.neg (project_to_frontier a c (frontier_data self'))).
Proof.
  intros H Hnd Hin Hnew.
  destruct (update_entry _ _ _ _ _ _ H Hnd Hin)
    as (archive & c & a & st1 & _ & Hc & Ha & _ & _ & _ & E4).
  exists c, a. split; [exact Hc|]. split; [exact Ha|]. rewrite E4.
  destruct (decide (Node.ref node ∈ node_set (frontier_plans self))) as [Hold|Hold].
  - apply branches_newly_off; tauto.
  - destruct (decide (Node.id node = Node.id new_node)) as [Hid|Hid].
    + apply branches_newly_off; tauto.
    + now apply branches_stays_off.
Qed.

Lemma update_keeps_plans self new_node self' affected updated :
  update_pareto_frontier_HV self new_node = Ok (self', affected, updated) →
  plans self' = plans self ∧ plans_cost self' = plans_cost self ∧
  plans_accuracy self' = plans_accuracy self.
Proof.
  intros H. destruct (valid_plans_cases self) as [Ev|Ev].
  - rewrite update_no_valid in H by exact Ev. now injection H as <- <- <-.
  - apply update_inv in H as (? & ? & ? & ? & _ & _ & _ & _ & -> & _); [|exact Ev].
    auto.
Qed.

(** The credit of a plan that stays off the frontier is emitted once: when
    the next ingestion leaves the step function as it was, the value emitted
    for the plan is exactly 0. *)
Lemma unchanged_frontier_gives_zero_delta
    self0 n1 self1 affected1 updated1 n2 accuracy2 self2 affected2 updated2
    node c a :
  update_pareto_frontier_HV self0 n1 = Ok (self1, affected1, updated1) →
  is_failure n2 = false →
  add_plan_f1 self1 n2 accuracy2 = Ok (self2, affected2, updated2) →
  List.NoDup (map Node.ref (valid_plans self0 ++ [n2])) →
  In node (valid_plans self0) →
  Node.ref node ∉ node_set (frontier_plans self1) →
  Node.ref node ∉ node_set (frontier_plans self2) →
  Node.id node ≠ Node.id n2 →
  frontier_data self2 = frontier_data self1 →
  plans_cost self0 !! Node.ref node = Some c →
  plans_accuracy self0 !! Node.ref node = Some a →
  Float.is_finite (project_to_frontier a c (frontier_data self1)) →
  ∃ delta, affected2 !! Node.ref node = Some delta ∧ Float.eqv delta (Fin 0).
Proof.
  intros H1 Hvalid H2 Hnd Hin Hoff1 Hoff2 Hid Hsame Hc Ha Hfin.
  assert (List.NoDup (map Node.ref (valid_plans self0))) as Hnd0.
  { rewrite map_app in Hnd. now apply NoDup_app_remove_r in Hnd. }
  destruct (recorded_after_update _ _ _ _ _ _ H1 Hnd0 Hin Hoff1)
    as (c1 & a1 & Hc1 & Ha1 & Hrec).
  rewrite Hc in Hc1. rewrite Ha in Ha1. injection Hc1 as <-. injection Ha1 as <-.
  destruct (update_keeps_plans _ _ _ _ _ H1) as (Hp & Hpc & Hpa).
  assert (valid_plans self1 = valid_plans self0) as Hv
    by (unfold valid_plans; now rewrite Hp).
  assert (Node.ref n2 ≠ Node.ref node) as Hne.
  { intros E. rewrite map_app in Hnd. simpl in Hnd.
    apply NoDup_remove_2 in Hnd. apply Hnd. rewrite app_nil_r, E.
    now apply in_map. }
  rewrite add_plan_f1_valid in H2 by exact Hvalid.
  assert (List.NoDup (map Node.ref (valid_plans (stored self1 n2 accuracy2))))
    as Hnd2 by (rewrite valid_plans_stored, Hv by exact Hvalid; exact Hnd).
  assert (In node (valid_plans (stored self1 n2 accuracy2))) as Hin2.
  { rewrite valid_plans_stored, Hv by exact Hvalid. apply in_or_app. now left. }
  destruct (stays_off_entry _ _ _ _ _ _ H2 Hnd2 Hin2 Hoff1 Hoff2 Hid)
    as (c2 & a2 & Hc2 & Ha2 & Haff & _).
  simpl in Hc2, Ha2, Haff.
  rewrite lookup_insert_ne in Hc2 by exact Hne.
  rewrite lookup_insert_ne in Ha2 by exact Hne.
  rewrite Hpc, Hc in Hc2. rewrite Hpa, Ha in Ha2.
  injection Hc2 as <-. injection Ha2 as <-.
  rewrite Hrec in Haff. simpl in Haff.
  eexists. split; [exact Haff|].
  apply sub_recorded_zero.
  - rewrite Hsame. apply eqv_refl.
  - now destruct (project_to_frontier a c (frontier_data self1)).
Qed.

(** ** Failure plans *)

Lemma valid_plans_without_failures self :
  valid_plans (without_failures self) = valid_plans self.
Proof.
  unfold valid_plans at 1. simpl. unfold valid_plans.
  induction (plans self) as [|x l IH]; [reflexivity|].
  destruct (decide (is_failure x = false)) as [Hx|Hx].
  - rewrite !filter_cons_True by exact Hx. now rewrite IH.
  - rewrite !filter_cons_False by exact Hx. exact IH.
Qed.

Lemma update_ignores_failures self new_node :
  same_outcome (update_pareto_frontier_HV self new_node)
               (update_pareto_frontier_HV (without_failures self) new_node).
Proof.
  pose proof (valid_plans_without_failures self) as Hv.
  unfold update_pareto_frontier_HV. unfold valid_plans in Hv. rewrite Hv.
  simpl. fold (valid_plans self).
  destruct (valid_plans self) as [|v vs]; [simpl; auto 10|].
  destruct (sort_by_cost _ _) as [sorted|e]; [|reflexivity]. cbn.
  unfold reconstruct_old_frontier, frontier_points. simpl.
  destruct (mapR _ (filter _ (frontier_plans self))) as [archive|e]; [|reflexivity].
  cbn.
  destruct (mapR _ (scan_frontier _ _ _)) as [new_data|e]; [|reflexivity]. cbn.
  unfold reward_step. simpl.
  destruct (foldR _ _ sorted) as [out|e]; [|reflexivity]. cbn. auto 10.
Qed.

Lemma update_frontier_valid self new_node self' affected updated :
  update_pareto_frontier_HV self new_node = Ok (self', affected, updated) →
  ∀ member, In member (frontier_plans self') →
            In member (valid_plans self) ∧ is_failure member = false.
Proof.
  intros H member Hm.
  destruct (valid_plans_cases self) as [Ev|Ev].
  { rewrite update_no_valid in H by exact Ev. injection H as <- <- <-. destruct Hm. }
  apply update_inv in H
    as (sorted & archive & new_data & out & Hs & _ & _ & _ & -> & _ & _);
    [|exact Ev].
  apply sort_by_cost_spec in Hs as [Hperm _]. simpl in Hm.
  apply scan_frontier_subset in Hm.
  assert (In member (valid_plans self)) as Hin.
  { eapply Permutation_in; [symmetry; exact Hperm|exact Hm]. }
  split; [exact Hin|].
  unfold valid_plans in Hin.
  apply list_elem_of_In, list_elem_of_filter in Hin. tauto.
Qed.

Lemma update_credit_frame self new_node self' affected updated r :
  update_pareto_frontier_HV self new_node = Ok (self', affected, updated) →
  (∀ plan, In plan (valid_plans self) → Node.ref plan ≠ r) →
  affected !! r = None ∧ node_distances self' !! r = node_distances self !! r.
Proof.
  intros H Hr.
  destruct (valid_plans_cases self) as [Ev|Ev].
  { rewrite update_no_valid in H by exact Ev. injection H as <- <- <-.
    split; [apply lookup_empty|reflexivity]. }
  apply update_inv in H
    as (sorted & archive & new_data & out & Hs & _ & _ & Hloop & -> & -> & _);
    [|exact Ev].
  apply sort_by_cost_spec in Hs as [Hperm _].
  destruct (loop_frame _ _ _ _ _ _ _ _ _ r Hloop) as [H1 H2].
  { intros Hin. apply in_map_iff in Hin as (plan & E & Hin).
    apply (Hr plan); [|exact E].
    eapply Permutation_in; [symmetry; exact Hperm|exact Hin]. }
  simpl in *. rewrite H1, H2. split; [apply lookup_empty|reflexivity].
Qed.

(** C5.  Ingesting a plan whose cost is the failure sentinel is a
    rejection: the result map is empty and no frontier change is reported,
    negative infinity is recorded as the plan's accuracy, and the plan list,
    the cost map, the frontier, the credit map and the action-reward sink
    are left as they were.  In any later update a failure plan is never on
    the frontier, no credit entry is written for it, and the outcome (the
    sink included) is the same as if it were not in the plan list. *)
Theorem failure_plan_rejected :
  ∀ (self : ParetoFrontier) (node : Node.t) (accuracy : float),
    is_failure node = true →
    add_plan_f1 self node accuracy
    = Ok ({| plans := plans self;
             plans_accuracy := <[Node.ref node := NInf]> (plans_accuracy self);
             plans_cost := plans_cost self;
             frontier_plans := frontier_plans self;
             frontier_data := frontier_data self;
             action_rewards := action_rewards self;
             node_distances := node_distances self;
             on_frontier := on_frontier self |}, ∅, false) ∧
    (∀ (later : ParetoFrontier) (new_node : Node.t) (later' : ParetoFrontier)
       (affected : gmap nat float) (updated : bool),
       update_pareto_frontier_HV later new_node = Ok (later', affected, updated) →
       ¬ In node (frontier_plans later') ∧
       ((∀ plan, In plan (valid_plans later) → Node.ref plan ≠ Node.ref node) →
          affected !! Node.ref node = None ∧
          node_distances later' !! Node.ref node
          = node_distances later !! Node.ref node)) ∧
    (∀ (later : ParetoFrontier) (new_node : Node.t),
       same_outcome (update_pareto_frontier_HV later new_node)
                    (update_pareto_frontier_HV (without_failures later) new_node)).
Proof.
  intros self node accuracy Hfail. split; [|split].
  - unfold add_plan_f1. now rewrite Hfail.
  - intros later new_node later' affected updated H. split.
    + intros Hin. apply (update_frontier_valid _ _ _ _ _ H) in Hin as [_ Hv].
      congruence.
    + intros Hr. eapply update_credit_frame; eassumption.
  - apply update_ignores_failures.
Qed.

Lemma failure_plan_rejected_witness :
  add_plan_f1 (init ∅) failed_plan (Fin 0.7)
  = Ok ({| plans := []; plans_accuracy := {[ 7%nat := NInf ]}; plans_cost := ∅;
           frontier_plans := []; frontier_data := [];
           action_rewards := ∅; node_distances := ∅; on_frontier := ∅ |},
        ∅, false).
Proof.
  apply (failure_plan_rejected (init ∅) failed_plan (Fin 0.7)). reflexivity.
Defined.

(** [add_plan] rejects a failure plan too, but records no accuracy for it. *)
Lemma add_plan_rejects_failure compare self node :
  is_failure node = true → add_plan compare self node = Ok (self, ∅).
Proof. unfold add_plan. now intros ->. Qed.

(** ** Exceptions of the ingestion *)











(** With no valid plan the recomputation leaves an empty frontier and
    returns an empty map. *)
Lemma update_without_valid_plans self new_node :
  valid_plans self = [] →
  ∃ self', update_pareto_frontier_HV self new_node = Ok (self', ∅, false) ∧
           frontier_plans self' = [] ∧ frontier_data self' = [].
Proof.
  intros Ev. rewrite update_no_valid by exact Ev. eauto.
Qed.

(** [add_plan] on a plan that is not a failure: the call of the method the
    class does not define raises. *)
Lemma add_plan_raises compare self node :
  is_failure node = false → add_plan compare self node = Raise AttributeError.
Proof. unfold add_plan. now intros ->. Qed.

(** C6.  The first plan of a run, of cost 10, handed to [add_plan]: the
    call does not complete, it raises [AttributeError]. *)
Theorem add_plan_first_plan_raises :
  ∀ compare : Node.t → Node.t → result Z,
    add_plan compare (init ∅) plan_zero = Raise AttributeError.
Proof. intros compare. reflexivity. Qed.

(** * More on the engine *)

(** ** The frontier and its points *)

Lemma Forall2_In_l {A B} (R : A → B → Prop) l l' x :
  Forall2 R l l' → In x l → ∃ y, In y l' ∧ R x y.
Proof.
  induction 1 as [|a b l l' Hab H IH]; [intros []|].
  intros [->|Hin]; [exists b; split; [now left|exact Hab]|].
  destruct (IH Hin) as (y & Hy & Hxy). exists y. split; [now right|exact Hxy].
Qed.

Lemma foldR_Ok_In {A B} (f : B → A → result B) (l : list A) (b out : B) x :
  foldR f b l = Ok out → In x l → ∃ b1 b2, f b1 x = Ok b2.
Proof.
  revert b. induction l as [|y l IH]; intros b H; [intros []|].
  simpl in H. apply bind_Ok in H as (b' & Hy & H).
  intros [->|Hin]; [eauto|]. eapply IH; eassumption.
Qed.

(** A successful update has read the cost and the accuracy of every valid
    plan. *)
Lemma update_valid_recorded self new_node self' affected updated node :
  update_pareto_frontier_HV self new_node = Ok (self', affected, updated) →
  In node (valid_plans self) →
  ∃ c a, plans_cost self !! Node.ref node = Some c ∧
         plans_accuracy self !! Node.ref node = Some a.
Proof.
  intros H Hin.
  apply update_inv in H
    as (sorted & archive & new_data & out & Hs & _ & _ & Hloop & _).
  2: { intros E. rewrite E in Hin. destruct Hin. }
  apply sort_by_cost_spec in Hs as [Hperm _].
  assert (In node sorted) as Hin' by (eapply Permutation_in; eassumption).
  destruct (foldR_Ok_In _ _ _ _ _ Hloop Hin') as (b1 & b2 & Hstep).
  apply reward_step_inv in Hstep as (c & a & Hc & Ha & _). eauto.
Qed.

(** X1.  After an update the stored frontier points are, member by member
    and in the same order, the recorded accuracy and the recorded cost of
    the frontier plans. *)
Theorem frontier_data_matches_frontier :
  ∀ (self : ParetoFrontier) (new_node : Node.t) (self' : ParetoFrontier)
    (affected : gmap nat float) (updated : bool),
    update_pareto_frontier_HV self new_node = Ok (self', affected, updated) →
    Forall2 (λ member point,
               plans_accuracy self' !! Node.ref member = Some point.1 ∧
               plans_cost self' !! Node.ref member = Some point.2)
            (frontier_plans self') (frontier_data self') ∧
    length (frontier_data self') = length (frontier_plans self').
Proof.
  intros self new_node self' affected updated H.
  assert (Forall2 (λ member point,
               plans_accuracy self' !! Node.ref member = Some point.1 ∧
               plans_cost self' !! Node.ref member = Some point.2)
            (frontier_plans self') (frontier_data self')) as Hall.
  { destruct (valid_plans_cases self) as [Ev|Ev].
    - rewrite update_no_valid in H by exact Ev. injection H as <- <- <-. constructor.
    - apply update_inv in H
        as (sorted & archive & new_data & out & _ & _ & Hd & _ & -> & _ & _);
        [|exact Ev].
      simpl. apply mapR_Ok in Hd.
      eapply Forall2_impl; [exact Hd|]. intros member point Hp. simpl in Hp.
      apply bind_Ok in Hp as (a & Ha & Hp). apply bind_Ok in Hp as (c & Hc & Hp).
      injection Hp as <-. unfold getitem in Ha, Hc. simpl.
      destruct (plans_accuracy self !! Node.ref member); [|discriminate].
      destruct (plans_cost self !! Node.ref member); [|discriminate].
      injection Ha as ->. injection Hc as ->. auto. }
  split; [exact Hall|]. symmetry. eapply Forall2_length, Hall.
Qed.

Lemma frontier_data_matches_frontier_witness :
  ∃ self' affected updated,
    add_plan_f1 (engine_after [(plan_a, Fin 0.6)]) plan_c (Fin 0.9)
    = Ok (self', affected, updated) ∧
    length (frontier_data self') = length (frontier_plans self').
Proof.
  assert (∃ r, add_plan_f1 (engine_after [(plan_a, Fin 0.6)]) plan_c (Fin 0.9) = Ok r)
    as [[[self' affected] updated] H] by (eexists; vm_compute; reflexivity).
  exists self', affected, updated. split; [exact H|].
  rewrite add_plan_f1_valid in H by reflexivity.
  apply (frontier_data_matches_frontier _ _ _ _ _ H).
Defined.

(** ** What the scan leaves out *)

Section ScanCover.
Variable accuracy_of : gmap nat float.

Lemma scan_frontier_covers nodes m0 p :
  In p nodes → ¬ In p (scan_frontier accuracy_of nodes m0) →
  Float.lt m0 (scan_accuracy accuracy_of p) = false ∨
  ∃ l1 l2 m, nodes = l1 ++ p :: l2 ∧ In m l1 ∧
             In m (scan_frontier accuracy_of nodes m0) ∧
             Float.lt (scan_accuracy accuracy_of m) (scan_accuracy accuracy_of p)
             = false.
Proof.
  revert m0. induction nodes as [|n nodes IH]; intros m0; [intros []|].
  rewrite scan_frontier_cons.
  destruct (Float.lt m0 (scan_accuracy accuracy_of n)) eqn:E; intros Hin Hnot.
  - destruct Hin as [->|Hin]; [exfalso; apply Hnot; now left|].
    assert (¬ In p (scan_frontier accuracy_of nodes (scan_accuracy accuracy_of n)))
      as Hnot' by (intros X; apply Hnot; now right).
    right. destruct (IH _ Hin Hnot') as [Hle|(l1 & l2 & m & -> & Hm1 & Hm2 & Hle)].
    + apply in_split in Hin as (l1 & l2 & ->).
      exists (n :: l1), l2, n. split; [reflexivity|]. split; [now left|].
      split; [now left|exact Hle].
    + exists (n :: l1), l2, m. split; [reflexivity|]. split; [now right|].
      split; [now right|exact Hle].
  - destruct Hin as [->|Hin]; [now left|].
    destruct (IH _ Hin Hnot) as [Hle|(l1 & l2 & m & -> & Hm1 & Hm2 & Hle)];
      [now left|right].
    exists (n :: l1), l2, m. split; [reflexivity|]. split; [now right|]. auto.
Qed.

Lemma scan_frontier_none nodes m0 :
  (∀ n, In n nodes → Float.lt m0 (scan_accuracy accuracy_of n) = false) →
  scan_frontier accuracy_of nodes m0 = [].
Proof.
  induction nodes as [|n nodes IH]; intros Hall; [reflexivity|].
  rewrite scan_frontier_cons, (Hall n (or_introl eq_refl)).
  apply IH. intros; apply Hall; now right.
Qed.

End ScanCover.

Lemma StronglySorted_before {A} (R : A → A → Prop) l1 x l2 m :
  StronglySorted R (l1 ++ x :: l2) → In m l1 → R m x.
Proof.
  induction l1 as [|y l1 IH]; simpl; [intros _ []|].
  intros H [->|Hin]; inversion H as [|? ? Hs Hall]; subst.
  - rewrite List.Forall_forall in Hall. apply Hall, in_elt.
  - now apply IH.
Qed.

(** X2.  Every valid plan that the update leaves off the frontier, and whose
    accuracy is above negative infinity, is covered by a frontier member:
    one that costs no more and that it does not exceed in accuracy. *)
Theorem off_frontier_plan_is_covered :
  ∀ (self : ParetoFrontier) (new_node : Node.t) (self' : ParetoFrontier)
    (affected : gmap nat float) (updated : bool) (p : Node.t) (xp : float),
    update_pareto_frontier_HV self new_node = Ok (self', affected, updated) →
    In p (valid_plans self) → ¬ In p (frontier_plans self') →
    plans_accuracy self !! Node.ref p = Some xp → Float.lt NInf xp = true →
    ∃ m xm cm cp,
      In m (frontier_plans self') ∧
      plans_accuracy self !! Node.ref m = Some xm ∧
      plans_cost self !! Node.ref m = Some cm ∧
      plans_cost self !! Node.ref p = Some cp ∧
      cm <= cp ∧ Float.lt xm xp = false.
Proof.
  intros self new_node self' affected updated p xp H Hin Hnot Hxp Habove.
  assert (∀ m, In m (frontier_plans self') →
               ∃ xm, plans_accuracy self !! Node.ref m = Some xm) as Hacc.
  { intros m Hm.
    destruct (update_frontier_valid _ _ _ _ _ H m Hm) as [Hv _].
    destruct (update_valid_recorded _ _ _ _ _ _ H Hv) as (c & a & _ & Ha). eauto. }
  apply update_inv in H
    as (sorted & archive & new_data & out & Hs & _ & _ & _ & -> & _ & _).
  2: { intros E. rewrite E in Hin. destruct Hin. }
  apply sort_by_cost_spec in Hs as [Hperm Hsorted]. simpl in *.
  assert (In p sorted) as Hin' by (eapply Permutation_in; eassumption).
  destruct (scan_frontier_covers (plans_accuracy self) sorted NInf p Hin' Hnot)
    as [Hle|(l1 & l2 & m & Heq & Hm1 & Hm2 & Hle)].
  - unfold scan_accuracy in Hle. rewrite Hxp in Hle. simpl in Hle. congruence.
  - rewrite Heq in Hsorted.
    destruct (StronglySorted_before _ _ _ _ m Hsorted Hm1)
      as (cm & cp & Hcm & Hcp & Hcost).
    destruct (Hacc m Hm2) as [xm Hxm].
    exists m, xm, cm, cp. unfold scan_accuracy in Hle.
    rewrite Hxm, Hxp in Hle. simpl in Hle. auto 10.
Qed.

Lemma off_frontier_plan_is_covered_witness :
  ∃ self' affected updated m xm cm cp,
    add_plan_f1 (engine_after [(plan_a, Fin 0.6)]) plan_c (Fin 0.5)
    = Ok (self', affected, updated) ∧
    In m (frontier_plans self') ∧
    plans_accuracy (stored (engine_after [(plan_a, Fin 0.6)]) plan_c (Fin 0.5))
      !! Node.ref m = Some xm ∧
    plans_cost (stored (engine_after [(plan_a, Fin 0.6)]) plan_c (Fin 0.5))
      !! Node.ref m = Some cm ∧
    plans_cost (stored (engine_after [(plan_a, Fin 0.6)]) plan_c (Fin 0.5))
      !! Node.ref plan_c = Some cp ∧
    cm <= cp ∧ Float.lt xm (Fin 0.5) = false.
Proof.
  assert (∃ r, add_plan_f1 (engine_after [(plan_a, Fin 0.6)]) plan_c (Fin 0.5) = Ok r)
    as [[[self' affected] updated] H] by (eexists; vm_compute; reflexivity).
  exists self', affected, updated.
  pose proof H as H'. rewrite add_plan_f1_valid in H' by reflexivity.
  destruct (off_frontier_plan_is_covered _ _ _ _ _ plan_c (Fin 0.5) H')
    as (m & xm & cm & cp & Hm); [vm_compute; auto| |reflexivity|reflexivity|].
  - vm_compute in H. injection H as <- _ _. vm_compute.
    intros [E|[]]. discriminate E.
  - exists m, xm, cm, cp. split; [exact H|exact Hm].
Defined.

(** X3.  The frontier an update leaves is empty exactly when no valid plan
    has an accuracy above negative infinity; so one plan of finite accuracy
    is enough for a frontier to exist. *)
Theorem frontier_empty_iff_no_accuracy :
  ∀ (self : ParetoFrontier) (new_node : Node.t) (self' : ParetoFrontier)
    (affected : gmap nat float) (updated : bool),
    update_pareto_frontier_HV self new_node = Ok (self', affected, updated) →
    (frontier_plans self' = [] ↔
     ∀ p x, In p (valid_plans self) →
            plans_accuracy self !! Node.ref p = Some x → Float.lt NInf x = false).
Proof.
  intros self new_node self' affected updated H.
  pose proof (λ node, update_valid_recorded _ _ _ _ _ node H) as Hrec.
  destruct (valid_plans_cases self) as [Ev|Ev].
  { rewrite update_no_valid in H by exact Ev. injection H as <- <- <-.
    rewrite Ev. simpl. split; [intros _ p x []|reflexivity]. }
  apply update_inv in H
    as (sorted & archive & new_data & out & Hs & _ & _ & _ & -> & _ & _);
    [|exact Ev].
  apply sort_by_cost_spec in Hs as [Hperm _]. simpl. split.
  - intros Hnil p x Hin Hx.
    assert (In p sorted) as Hin' by (eapply Permutation_in; eassumption).
    destruct (scan_frontier_covers (plans_accuracy self) sorted NInf p Hin')
      as [Hle|(l1 & l2 & m & _ & _ & Hm & _)].
    + rewrite Hnil. intros [].
    + unfold scan_accuracy in Hle. now rewrite Hx in Hle.
    + rewrite Hnil in Hm. destruct Hm.
  - intros Hall. apply scan_frontier_none. intros n Hn.
    assert (In n (valid_plans self)) as Hin
      by (eapply Permutation_in; [symmetry; exact Hperm|exact Hn]).
    destruct (Hrec n Hin) as (c & a & _ & Ha).
    unfold scan_accuracy. rewrite Ha. simpl. eapply Hall; eassumption.
Qed.

Lemma frontier_empty_iff_no_accuracy_witness :
  ∃ self' affected updated,
    add_plan_f1 (init ∅) plan_a NInf = Ok (self', affected, updated) ∧
    frontier_plans self' = [].
Proof.
  assert (∃ r, add_plan_f1 (init ∅) plan_a NInf = Ok r)
    as [[[self' affected] updated] H] by (eexists; vm_compute; reflexivity).
  exists self', affected, updated. split; [exact H|].
  rewrite add_plan_f1_valid in H by reflexivity.
  apply (frontier_empty_iff_no_accuracy _ _ _ _ _ H).
  intros p x Hin Hx. vm_compute in Hin. destruct Hin as [<-|[]].
  vm_compute in Hx. now injection Hx as <-.
Defined.

(** ** The flags and the credit map *)

Section Flags.
Variable self : ParetoFrontier.
Variable new_node : Node.t.
Variables old_set new_set : gset nat.
Variables archive data : list (float * Q).

Lemma reward_branches_other_flag st n c a r :
  r ≠ Node.ref n →
  r_on_frontier (reward_branches new_node old_set new_set archive data st n c a) !! r
  = r_on_frontier st !! r.
Proof.
  intros Hne. unfold reward_branches.
  repeat match goal with
         | |- context [if ?b then _ else _] => destruct b
         end; simpl; rewrite ?lookup_insert_ne by congruence; auto.
Qed.

Lemma loop_frame_flag l st out r :
  foldR (reward_step self new_node old_set new_set archive data) st l = Ok out →
  ¬ In r (map Node.ref l) →
  r_on_frontier out !! r = r_on_frontier st !! r.
Proof.
  revert st. induction l as [|x l IH]; intros st H Hr; simpl in H.
  - now injection H as <-.
  - apply bind_Ok in H as (st2 & Hstep & H).
    apply reward_step_inv in Hstep as (c & a & _ & _ & ->).
    simpl in Hr. rewrite (IH _ H) by tauto.
    apply reward_branches_other_flag. intros E. apply Hr. left. congruence.
Qed.

Lemma loop_hit_flag l st out n :
  foldR (reward_step self new_node old_set new_set archive data) st l = Ok out →
  List.NoDup (map Node.ref l) → In n l →
  ∃ st1 c a,
    r_on_frontier st1 !! Node.ref n = r_on_frontier st !! Node.ref n ∧
    r_on_frontier out !! Node.ref n
    = r_on_frontier (reward_branches new_node old_set new_set archive data st1 n c a)
        !! Node.ref n.
Proof.
  revert st. induction l as [|x l IH]; intros st H Hnd Hn; [destruct Hn|].
  simpl in H, Hnd. apply List.NoDup_cons_iff in Hnd as [Hx Hnd].
  apply bind_Ok in H as (st2 & Hstep & H).
  apply reward_step_inv in Hstep as (c & a & Hc & Ha & ->).
  destruct Hn as [->|Hn].
  - exists st, c, a. split; [reflexivity|]. now apply loop_frame_flag with (l := l).
  - destruct (IH _ H Hnd Hn) as (st1 & c1 & a1 & E1 & E2).
    assert (Node.ref n ≠ Node.ref x) as Hne.
    { intros E. apply Hx. rewrite <- E. now apply in_map. }
    exists st1, c1, a1. split; [|exact E2].
    rewrite E1. now apply reward_branches_other_flag.
Qed.

Lemma branches_flag st n c a :
  (Node.ref n ∈ new_set → Node.ref n ∉ old_set →
   r_on_frontier (reward_branches new_node old_set new_set archive data st n c a)
     !! Node.ref n = Some true) ∧
  (Node.ref n ∉ new_set →
   r_on_frontier (reward_branches new_node old_set new_set archive data st n c a)
     !! Node.ref n = Some false).
Proof.
  unfold reward_branches. split.
  - intros Hnew Hold.
    rewrite (bool_decide_eq_true_2 _ Hnew), (bool_decide_eq_false_2 _ Hold). simpl.
    apply lookup_insert_eq.
  - intros Hnew. rewrite (bool_decide_eq_false_2 _ Hnew). simpl.
    destruct (bool_decide (Node.ref n ∈ old_set)),
             (Z.eqb (Node.id n) (Node.id new_node)); simpl; apply lookup_insert_eq.
Qed.

End Flags.

(** X4.  After an update over distinct plans, the [on_frontier] flag of a
    valid plan that joins the frontier is set, the flag of every valid plan
    off the new frontier is cleared, and the flag of a plan other than the
    just-inserted one that stays on the frontier is left as it was. *)
Theorem on_frontier_flags_after_update :
  ∀ (self : ParetoFrontier) (new_node : Node.t) (self' : ParetoFrontier)
    (affected : gmap nat float) (updated : bool) (node : Node.t),
    update_pareto_frontier_HV self new_node = Ok (self', affected, updated) →
    List.NoDup (map Node.ref (valid_plans self)) →
    In node (valid_plans self) →
    let on_old := Node.ref node ∈ node_set (frontier_plans self) in
    let on_new := Node.ref node ∈ node_set (frontier_plans self') in
    (on_new ∧ ¬ on_old → on_frontier self' !! Node.ref node = Some true) ∧
    (¬ on_new → on_frontier self' !! Node.ref node = Some false) ∧
    (on_new ∧ on_old ∧ Node.id node ≠ Node.id new_node →
       on_frontier self' !! Node.ref node = on_frontier self !! Node.ref node).
Proof.
  intros self new_node self' affected updated node H Hnd Hin on_old on_new.
  apply update_inv in H
    as (sorted & archive & new_data & out & Hs & _ & _ & Hloop & -> & _ & _).
  2: { intros E. rewrite E in Hin. destruct Hin. }
  apply sort_by_cost_spec in Hs as [Hperm _].
  assert (List.NoDup (map Node.ref sorted)) as Hnd'.
  { eapply Permutation_NoDup; [|exact Hnd]. now apply Permutation_map. }
  assert (In node sorted) as Hin' by (eapply Permutation_in; eassumption).
  destruct (loop_hit_flag _ _ _ _ _ _ _ _ _ _ Hloop Hnd' Hin')
    as (st1 & c & a & E1 & E2).
  subst on_old on_new. simpl in *. rewrite E2.
  split; [|split].
  - intros [Hnew Hold]. now apply branches_flag.
  - intros Hnew. now apply branches_flag.
  - intros (Hnew & Hold & Hid). rewrite branches_stays_on by assumption. exact E1.
Qed.

Lemma on_frontier_flags_after_update_witness :
  ∃ self' affected updated,
    update_pareto_frontier_HV
      (stored (engine_after [(plan_a, Fin 0.6)]) plan_c (Fin 0.5)) plan_c
    = Ok (self', affected, updated) ∧
    on_frontier self' !! Node.ref plan_c = Some false.
Proof.
  assert (∃ r, update_pareto_frontier_HV
                 (stored (engine_after [(plan_a, Fin 0.6)]) plan_c (Fin 0.5)) plan_c
               = Ok r)
    as [[[self' affected] updated] H] by (eexists; vm_compute; reflexivity).
  exists self', affected, updated. split; [exact H|].
  apply (on_frontier_flags_after_update _ _ _ _ _ plan_c H).
  - vm_compute. repeat constructor; simpl; intuition discriminate.
  - vm_compute. auto.
  - vm_compute in H. injection H as <- _ _. decide_by_computation.
Defined.



(** ** Runs of ingestions *)

Lemma add_plan_f1_plans self node accuracy self' affected updated :
  add_plan_f1 self node accuracy = Ok (self', affected, updated) →
  plans self' = plans self ++ (if is_failure node then [] else [node]).
Proof.
  intros H. destruct (is_failure node) eqn:Ef.
  - unfold add_plan_f1 in H. rewrite Ef in H. injection H as <- _ _.
    simpl. now rewrite app_nil_r.
  - rewrite add_plan_f1_valid in H by exact Ef.
    now destruct (update_keeps_plans _ _ _ _ _ H) as (-> & _).
Qed.

Lemma node_in_self node nodes : In node nodes → node_in node nodes = true.
Proof. intros Hin. apply node_in_spec. eauto. Qed.

Lemma ingest_all_plans self items self' :
  ingest_all self items = Ok self' → plans self' = plans self ++ accepted items.
Proof.
  revert self. induction items as [|[node accuracy] items IH]; intros self H.
  - injection H as <-. unfold accepted. simpl. now rewrite app_nil_r.
  - unfold ingest_all in H. simpl in H.
    apply bind_Ok in H as (self1 & H1 & H).
    apply bind_Ok in H1 as ([[s1 affected] updated] & H1 & E). injection E as ->.
    rewrite (IH _ H). rewrite (add_plan_f1_plans _ _ _ _ _ _ H1).
    unfold accepted. rewrite <- app_assoc. f_equal.
    destruct (is_failure node) eqn:Ef.
    + rewrite filter_cons_False by (simpl; congruence). reflexivity.
    + rewrite filter_cons_True by exact Ef. reflexivity.
Qed.

(** X7.  A run of ingestions appends to the plan list exactly the plans
    whose cost is not the failure sentinel, in the order of ingestion, and
    removes or reorders nothing: [__len__] grows by the number of accepted
    plans and [__contains__] holds of each of them. *)
Theorem plans_after_ingestions :
  ∀ (self : ParetoFrontier) (items : list (Node.t * float)) (self' : ParetoFrontier),
    ingest_all self items = Ok self' →
    plans self' = plans self ++ accepted items ∧
    __len__ self' = (__len__ self + length (accepted items))%nat ∧
    (∀ node, In node (accepted items) → __contains__ self' node = true) ∧
    (∀ node, __contains__ self node = true → __contains__ self' node = true).
Proof.
  intros self items self' H.
  pose proof (ingest_all_plans _ _ _ H) as Hplans.
  split; [exact Hplans|]. split; [|split].
  - unfold __len__. now rewrite Hplans, length_app.
  - intros node Hin. unfold __contains__. apply node_in_self.
    rewrite Hplans. apply in_or_app. now right.
  - intros node Hin. unfold __contains__ in *. apply node_in_spec.
    apply node_in_spec in Hin as (other & Hother & E).
    exists other. split; [|exact E]. rewrite Hplans. apply in_or_app. now left.
Qed.

Lemma plans_after_ingestions_witness :
  ∃ self',
    ingest_all (init ∅) [(plan_a, Fin 0.6); (failed_plan, Fin 0.9); (plan_c, Fin 0.5)]
    = Ok self' ∧
    __len__ self' = 2%nat.
Proof.
  assert (∃ r, ingest_all (init ∅)
                 [(plan_a, Fin 0.6); (failed_plan, Fin 0.9); (plan_c, Fin 0.5)] = Ok r)
    as [self' H] by (eexists; vm_compute; reflexivity).
  exists self'. split; [exact H|].
  destruct (plans_after_ingestions _ _ _ H) as (_ & Hlen & _). exact Hlen.
Defined.

(** ** The summary *)


Section SummaryFacts.
Context {Path Value : Type}.
Variable get_id : Node.t → Z.
Variable yaml_file_path : Node.t → Path.
Variable value : Node.t → Value.


End SummaryFacts.

(** ** Updates that leave the frontier as it was *)

Lemma filter_none_rewards self old_set new_set archive data new_node action nodes :
  (∀ node, In node nodes → credited old_set new_set new_node node = true →
           Node.latest_action node ≠ Some action) →
  rewards_for self old_set new_set archive data new_node action nodes = [].
Proof.
  intros Hnone. unfold rewards_for.
  rewrite filter_none; [reflexivity|]. intros node Hin [Hc Ha].
  eapply Hnone; eassumption.
Qed.

(** X9.  When an update reports no frontier change, the action-reward sink
    changes at most at the action of the just-inserted plan (the plans with
    its [id]): every other entry is as before. *)
Theorem quiet_update_credits_only_inserted_plan :
  ∀ (self : ParetoFrontier) (new_node : Node.t) (self' : ParetoFrontier)
    (affected : gmap nat float) (action : string),
    update_pareto_frontier_HV self new_node = Ok (self', affected, false) →
    (∀ node, In node (valid_plans self) → Node.id node = Node.id new_node →
             Node.latest_action node ≠ Some action) →
    action_rewards self' !! action = action_rewards self !! action.
Proof.
  intros self new_node self' affected action H Hother.
  destruct (valid_plans_cases self) as [Ev|Ev].
  { rewrite update_no_valid in H by exact Ev. now injection H as <- _. }
  apply update_inv in H
    as (sorted & archive & new_data & out & Hs & _ & _ & Hloop & -> & _ & Hquiet);
    [|exact Ev].
  apply sort_by_cost_spec in Hs as [Hperm _]. simpl.
  symmetry in Hquiet. apply bool_decide_eq_false in Hquiet.
  assert (node_set (frontier_plans self)
          = node_set (scan_frontier (plans_accuracy self) sorted NInf)) as Hsame.
  { destruct (decide (node_set (frontier_plans self)
                      = node_set (scan_frontier (plans_accuracy self) sorted NInf)));
      [assumption|contradiction]. }
  rewrite (loop_action_rewards _ _ _ _ _ _ _ _ _ Hloop), credits_lookup.
  rewrite filter_none_rewards; [simpl; now destruct (action_rewards self !! action)|].
  intros node Hin Hc Ha. unfold credited, newly_on in Hc. rewrite <- Hsame in Hc.
  destruct (bool_decide (Node.ref node ∈ node_set (frontier_plans self)));
    simpl in Hc; apply Z.eqb_eq in Hc;
    (eapply Hother; [|exact Hc|exact Ha]);
    (eapply Permutation_in; [symmetry; exact Hperm|exact Hin]).
Qed.

Lemma quiet_update_credits_only_inserted_plan_witness :
  ∃ self' affected,
    update_pareto_frontier_HV
      (stored (engine_after [(plan_a, Fin 0.6); (plan_c, Fin 0.5)])
         plan_b (Fin 0.55)) plan_b
    = Ok (self', affected, false) ∧
    action_rewards self' !! "gleaning"%string
    = action_rewards (stored (engine_after [(plan_a, Fin 0.6); (plan_c, Fin 0.5)])
                        plan_b (Fin 0.55)) !! "gleaning"%string.
Proof.
  assert (∃ s a, update_pareto_frontier_HV
                   (stored (engine_after [(plan_a, Fin 0.6); (plan_c, Fin 0.5)])
                      plan_b (Fin 0.55)) plan_b
                 = Ok (s, a, false))
    as (self' & affected & H) by (eexists _, _; vm_compute; reflexivity).
  exists self', affected. split; [exact H|].
  apply (quiet_update_credits_only_inserted_plan _ _ _ _ _ H).
  intros node Hin Hid. vm_compute in Hin.
  destruct Hin as [<-|[<-|[<-|[]]]]; try discriminate Hid. discriminate.
Defined.

(** ** Distance of a reference point to its own step function *)

(** X10.  A reference point of finite accuracy whose cost no other
    reference point shares is at distance 0 from the step function of its
    reference frontier. *)
Theorem reference_point_at_distance_zero :
  ∀ (frontier_data : list (float * Q)) (a c : Q),
    In (Fin a, c) frontier_data →
    (∀ p, In p frontier_data → p.2 == c → p = (Fin a, c)) →
    Float.eqv (project_to_frontier (Fin a) c frontier_data) (Fin 0).
Proof.
  intros fd a c Hin Hunique.
  unfold project_to_frontier. destruct fd as [|p0 fd0] eqn:Efd; [destruct Hin|].
  rewrite <- Efd in *. clear Efd p0 fd0. unfold step_value.
  destruct (step_scan_spec c (sorted_by snd fd) (Fin 0) (sorted_by_sorted snd fd))
    as [[_ Hgt]|(p & Hp & Hle & Hmax & ->)].
  - specialize (Hgt (Fin a, c) (proj2 (sorted_by_In snd _ fd) Hin)). simpl in Hgt. lra.
  - apply sorted_by_In in Hp.
    assert (p.2 == c) as Hc.
    { specialize (Hmax (Fin a, c) (proj2 (sorted_by_In snd _ fd) Hin)).
      simpl in Hmax. apply Qle_antisym; [exact Hle|]. apply Hmax. lra. }
    rewrite (Hunique p Hp Hc).
    change (Qabs (a + - a) == 0). rewrite Qplus_opp_r. reflexivity.
Qed.

Lemma reference_point_at_distance_zero_witness :
  Float.eqv (project_to_frontier (Fin 0.8) 50 [(Fin 0.6, 10); (Fin 0.8, 50)]) (Fin 0).
Proof.
  apply (reference_point_at_distance_zero [(Fin 0.6, 10); (Fin 0.8, 50)] 0.8 50).
  - simpl. auto.
  - intros p [<-|[<-|[]]] Hc; [|reflexivity].
    simpl in Hc. vm_compute in Hc. discriminate Hc.
Defined.

(** * The document reader *)

Module ReaderFacts.
Import ReadNextDocTool.

Section Facts.
Context {Doc : Type}.
Implicit Types (self : t Doc) (docs : list Doc).

(** Taking [n + m] elements is taking [n] and then [m] of what follows the
    elements taken. *)
Lemma take_add_split {A} (n m : nat) (l : list A) :
  take (n + m) l = take n l ++ take m (drop (length (take n l)) l).
Proof.
  revert l. induction n as [|n IH]; intros [|x l]; simpl; try done.
  - now rewrite take_nil.
  - now rewrite IH.
Qed.

(** What the loop leaves: the documents read, appended, and the index moved
    past them. *)
Lemma read_loop_spec iterations self docs :
  read_loop iterations self docs =
    (docs ++ take iterations (drop (current_index self) (input_data self)),
     {| input_data := input_data self;
        current_index := current_index self
          + length (take iterations (drop (current_index self) (input_data self)));
        context_window := context_window self;
        total_docs := total_docs self |}).
Proof.
  revert self docs. induction iterations as [|n IH]; intros self docs.
  - simpl. rewrite app_nil_r, Nat.add_0_r. now destruct self.
  - simpl. destruct (Nat.leb_spec (length (input_data self)) (current_index self)) as [Hle|Hlt].
    + rewrite drop_ge by lia. simpl. rewrite app_nil_r, Nat.add_0_r. now destruct self.
    + destruct (lookup_lt_is_Some_2 _ _ Hlt) as [doc Hdoc].
      rewrite Hdoc, IH. simpl.
      rewrite (drop_S _ _ _ Hdoc). simpl.
      rewrite <- app_assoc. simpl. f_equal. f_equal. lia.
Qed.

(** X11. [read_next_docs(count)] returns the next [count] documents from
    the current position, fewer when the input runs out and none for a count
    below one; it leaves the input alone, moves the index past exactly the
    documents returned and lowers the remaining count by their number. *)
Theorem read_next_docs_reads_next_block self count :
  let '(docs, self') := read_next_docs self count in
  docs = take (Z.to_nat count) (drop (current_index self) (input_data self))
  ∧ input_data self' = input_data self
  ∧ current_index self' = (current_index self + length docs)%nat
  ∧ get_remaining_count self' = (get_remaining_count self - Z.of_nat (length docs))%Z.
Proof.
  unfold read_next_docs. rewrite read_loop_spec. simpl.
  repeat split. unfold get_remaining_count. simpl. lia.
Qed.

(** X12. Reading [n] documents and then [m] more returns, put together,
    what one call for [n + m] documents returns, and leaves the reader in
    the same state. *)
Theorem read_next_docs_compose self (n m : Z) :
  (0 ≤ n)%Z → (0 ≤ m)%Z →
  let '(docs1, self1) := read_next_docs self n in
  let '(docs2, self2) := read_next_docs self1 m in
  read_next_docs self (n + m) = (docs1 ++ docs2, self2).
Proof.
  intros Hn Hm. unfold read_next_docs. rewrite !read_loop_spec. simpl.
  rewrite Z2Nat.inj_add by lia.
  set (rest := drop (current_index self) (input_data self)).
  rewrite <- drop_drop. fold rest.
  rewrite (take_add_split (Z.to_nat n) (Z.to_nat m) rest).
  do 2 f_equal. rewrite length_app. lia.
Qed.

(** X13. After [reset], one call for at least as many documents as the
    input holds returns the whole input, in order, and then nothing is left:
    [has_more_docs] is false, the remaining count is zero and the next
    [read_next_doc] returns [None]. *)
Theorem read_all_after_reset self (count : Z) :
  (Z.of_nat (length (input_data self)) ≤ count)%Z →
  let '(docs, self') := read_next_docs (reset self) count in
  docs = input_data self
  ∧ has_more_docs self' = false
  ∧ get_remaining_count self' = 0%Z
  ∧ read_next_doc self' = (None, self').
Proof.
  intros Hcount. unfold read_next_docs. rewrite read_loop_spec. simpl.
  rewrite drop_0, take_ge by lia.
  unfold has_more_docs, get_remaining_count, read_next_doc. simpl.
  rewrite Nat.ltb_irrefl, Nat.leb_refl. repeat split. lia.
Qed.

(** X14. [read_next_doc] returns the document a call of [read_next_docs]
    for one document returns, and moves the reader the same way; it returns
    [None] exactly when [has_more_docs] is false, and then the reader is
    unchanged. *)
Theorem read_next_doc_is_single_read self :
  let '(doc, self') := read_next_doc self in
  read_next_docs self 1 = (option_list doc, self')
  ∧ (doc = None ↔ has_more_docs self = false)
  ∧ (doc = None → self' = self).
Proof.
  unfold read_next_docs, read_next_doc, has_more_docs. simpl.
  destruct (Nat.leb_spec (length (input_data self)) (current_index self)) as [Hle|Hlt].
  - repeat split; try done. intros _. apply Nat.ltb_ge. lia.
  - destruct (lookup_lt_is_Some_2 _ _ Hlt) as [doc Hdoc]. rewrite Hdoc.
    simpl. rewrite Nat.leb_refl || idtac.
    repeat split; try done.
    intros E. apply Nat.ltb_ge in E. lia.
Qed.

End Facts.

Lemma read_next_docs_compose_witness :
  let self := init ["a"; "b"; "c"; "d"; "e"]%string 32000 in
  read_next_docs self (2 + 2) =
    ((read_next_docs self 2).1 ++ (read_next_docs (read_next_docs self 2).2 2).1,
     (read_next_docs (read_next_docs self 2).2 2).2).
Proof.
  intros self.
  pose proof (read_next_docs_compose self 2 2 ltac:(lia) ltac:(lia)) as H.
  destruct (read_next_docs self 2) as [docs1 self1]. cbn [fst snd].
  destruct (read_next_docs self1 2) as [docs2 self2]. exact H.
Defined.

Lemma read_all_after_reset_witness :
  let self := (read_next_docs (init ["a"; "b"; "c"]%string 32000) 2).2 in
  (read_next_docs (reset self) 3).1 = ["a"; "b"; "c"]%string.
Proof.
  intros self.
  pose proof (read_all_after_reset self 3 ltac:(vm_compute; discriminate)) as H.
  destruct (read_next_docs (reset self) 3) as [docs self']. apply H.
Defined.

End ReaderFacts.

(** * Truncation of a conversation *)

Module ChatFacts.
Import Chat.

Lemma sumZ_from (a : Z) (xs : list Z) : foldl Z.add a xs = (a + sumZ xs)%Z.
Proof.
  unfold sumZ. revert a. induction xs as [|x xs IH]; intros a; simpl.
  - lia.
  - rewrite IH, (IH (0 + x)%Z). lia.
Qed.

Lemma sumZ_cons (x : Z) (xs : list Z) : sumZ (x :: xs) = (x + sumZ xs)%Z.
Proof. unfold sumZ at 1. simpl. apply sumZ_from. Qed.

Lemma sumZ_app (xs ys : list Z) : sumZ (xs ++ ys) = (sumZ xs + sumZ ys)%Z.
Proof.
  induction xs as [|x xs IH]; simpl.
  - unfold sumZ at 2. simpl. lia.
  - rewrite !sumZ_cons, IH. lia.
Qed.

Lemma insert_before_last_snoc {A} (x latest : A) (pre : list A) :
  insert_before_last x (pre ++ [latest]) = (pre ++ [x]) ++ [latest].
Proof.
  unfold insert_before_last.
  destruct (pre ++ [latest]) as [|y l] eqn:E.
  - now destruct pre.
  - rewrite <- E, removelast_last, last_last, <- app_assoc. reflexivity.
Qed.

Section TruncateFacts.
Variable llm_count_tokens : string → string → Z.

Local Abbreviation tok := (message_tokens llm_count_tokens).
Local Abbreviation tokens := (tokens_of llm_count_tokens).
Local Abbreviation truncate := (truncate_message_content llm_count_tokens).

Lemma tokens_app (l1 l2 : list message) : tokens (l1 ++ l2) = (tokens l1 + tokens l2)%Z.
Proof. unfold tokens_of. now rewrite map_app, sumZ_app. Qed.

Lemma tokens_cons (m : message) (l : list message) : tokens (m :: l) = (tok m + tokens l)%Z.
Proof. unfold tokens_of. simpl. apply sumZ_cons. Qed.

(** The loop takes messages while they fit and stops at the first that
    does not; what it takes goes, in the order taken, just before the
    latest message. *)
Lemma add_middle_spec (available : Z) (msgs : list message) :
  ∀ (current : Z) (pre : list message) (latest : message),
  ∃ taken dropped,
    msgs = taken ++ dropped
    ∧ add_middle llm_count_tokens available msgs current (pre ++ [latest])
      = pre ++ taken ++ [latest]
    ∧ (taken = [] ∨ (current + tokens taken ≤ available)%Z)
    ∧ (∀ d ds, dropped = d :: ds → (available < current + tokens taken + tok d)%Z).
Proof.
  induction msgs as [|msg rest IH]; intros current pre latest.
  - exists [], []. simpl. repeat split; [now left | discriminate].
  - simpl. destruct (Z.leb_spec (current + tok msg) available) as [Hfit|Hover].
    + rewrite insert_before_last_snoc.
      destruct (IH (current + tok msg)%Z (pre ++ [msg]) latest)
        as (taken & dropped & -> & Hres & Hsum & Hstop).
      exists (msg :: taken), dropped. repeat split.
      * rewrite Hres, <- app_assoc. reflexivity.
      * right. rewrite tokens_cons. destruct Hsum as [-> | Hsum].
        -- unfold tokens_of. simpl. unfold sumZ. simpl. lia.
        -- lia.
      * intros d ds E. specialize (Hstop d ds E). rewrite tokens_cons. lia.
    + exists [], (msg :: rest). repeat split; [now left|].
      intros d ds [= <- <-]. unfold tokens_of, sumZ. simpl. lia.
Qed.

Lemma tokens_rev (l : list message) : tokens (rev l) = tokens l.
Proof.
  induction l as [|m l IH]; [done|].
  simpl. rewrite tokens_app, (tokens_cons m []), (tokens_cons m l), IH.
  change (tokens []) with 0%Z. lia.
Qed.

(** A conversation is its system prefix alone, or the prefix, some middle
    messages and a latest message. *)
Lemma conversation_shape (messages : list message) :
  messages = system_prefix messages
  ∨ ∃ middle latest, messages = system_prefix messages ++ middle ++ [latest].
Proof.
  destruct messages as [|first rest]; [now left|].
  unfold system_prefix. destruct (has_role "system" first).
  - destruct rest as [|m rest] using rev_ind; [now left|].
    right. exists rest, m. reflexivity.
  - right. destruct (exists_last (l := first :: rest)) as (middle & latest & ->); [done|].
    exists middle, latest. reflexivity.
Qed.

(** Over the budget, with something after the system prefix: the call
    returns what the loop makes of the middle messages, most recent first. *)
Lemma truncate_unfold (messages middle : list message) (latest : message)
    (max_tokens : Z) :
  (max_tokens < tokens messages)%Z →
  messages = system_prefix messages ++ middle ++ [latest] →
  truncate messages max_tokens =
    add_middle llm_count_tokens
      (max_tokens - tokens (system_prefix messages ++ [latest]) - 1000)
      (rev middle) 0 (system_prefix messages ++ [latest]).
Proof.
  intros Hover Hshape.
  assert (∃ first rest, messages = first :: rest) as (first & rest & Hm).
  { destruct messages as [|first rest]; [|eauto].
    simpl in Hshape. now destruct middle. }
  subst messages. unfold truncate_message_content. cbv zeta.
  destruct (Z.leb_spec (sumZ (map tok (first :: rest))) max_tokens) as [Hle|_].
  { unfold tokens_of in Hover. lia. }
  unfold system_prefix in *.
  destruct (has_role "system" first) eqn:Hsys; simpl app in Hshape.
  - injection Hshape as Hrest. rewrite Hrest.
    destruct (middle ++ [latest]) as [|y l] eqn:E; [now destruct middle|].
    rewrite <- E, last_last, removelast_last.
    f_equal. unfold tokens_of, sumZ. simpl. lia.
  - rewrite Hshape.
    destruct (middle ++ [latest]) as [|y l] eqn:E; [now destruct middle|].
    rewrite <- E, last_last, removelast_last.
    f_equal. unfold tokens_of, sumZ. simpl. lia.
Qed.

(** A conversation that is only a system message comes back as it is. *)
Lemma truncate_system_only (messages : list message) (max_tokens : Z) :
  messages = system_prefix messages → truncate messages max_tokens = messages.
Proof.
  destruct messages as [|first rest]; [done|].
  unfold system_prefix, truncate_message_content. cbv zeta.
  destruct (has_role "system" first); [|discriminate].
  intros [= ->]. now destruct (_ <=? _)%Z.
Qed.

(** X15. A conversation over the budget that has something after its
    system prefix is cut to: the system prefix, then the most recent of the
    middle messages in reverse order, then the latest message.  The middle
    messages kept are those that fit, taken from the most recent backwards
    until the first that does not fit, in what the budget leaves after the
    prefix, the latest message and a reserve of 1000 tokens. *)
Theorem truncate_keeps_recent_messages_reversed (messages middle : list message)
    (latest : message) (max_tokens : Z) :
  (max_tokens < tokens messages)%Z →
  messages = system_prefix messages ++ middle ++ [latest] →
  let available :=
    (max_tokens - tokens (system_prefix messages ++ [latest]) - 1000)%Z in
  ∃ skipped kept,
    middle = skipped ++ kept
    ∧ truncate messages max_tokens = system_prefix messages ++ rev kept ++ [latest]
    ∧ (kept = [] ∨ (tokens kept ≤ available)%Z)
    ∧ (∀ s, last skipped = Some s → (available < tokens kept + tok s)%Z).
Proof.
  intros Hover Hshape available.
  rewrite (truncate_unfold _ _ _ _ Hover Hshape). fold available.
  destruct (add_middle_spec available (rev middle) 0 (system_prefix messages) latest)
    as (taken & dropped & Hsplit & Hres & Hsum & Hstop).
  exists (rev dropped), (rev taken). repeat split.
  - rewrite <- rev_app_distr, <- Hsplit, rev_involutive. reflexivity.
  - rewrite rev_involutive. exact Hres.
  - destruct Hsum as [-> | Hsum]; [now left | right].
    rewrite tokens_rev. lia.
  - intros s Hs. rewrite tokens_rev.
    destruct dropped as [|d ds]; [discriminate|].
    simpl in Hs. rewrite last_snoc in Hs. injection Hs as ->.
    specialize (Hstop _ _ eq_refl). lia.
Qed.

(** X16. What the truncation returns for a conversation over the budget
    either has at most two messages, the system prefix and the latest
    message, or is estimated at no more than the budget less the reserve of
    1000 tokens. *)
Theorem truncate_result_within_reserve (messages : list message) (max_tokens : Z) :
  (max_tokens < tokens messages)%Z →
  length (truncate messages max_tokens) ≤ 2
  ∨ (tokens (truncate messages max_tokens) ≤ max_tokens - 1000)%Z.
Proof.
  intros Hover.
  assert (length (system_prefix messages) ≤ 1) as Hpre.
  { destruct messages as [|first rest]; simpl; [lia|].
    destruct (has_role "system" first); simpl; lia. }
  destruct (conversation_shape messages) as [Hsys | (middle & latest & Hshape)].
  - left. rewrite (truncate_system_only _ _ Hsys), Hsys. lia.
  - rewrite (truncate_unfold _ _ _ _ Hover Hshape).
    destruct (add_middle_spec
                (max_tokens - tokens (system_prefix messages ++ [latest]) - 1000)
                (rev middle) 0 (system_prefix messages) latest)
      as (taken & dropped & _ & -> & Hsum & _).
    destruct Hsum as [-> | Hsum].
    + left. rewrite !length_app. simpl. lia.
    + right. rewrite !tokens_app in *. lia.
Qed.

(** X17. Whatever the budget, the truncation ends with the last message of
    the conversation, begins with its system prefix, returns only messages
    of the conversation, and no more of them than it was given. *)
Theorem truncate_keeps_ends (messages : list message) (max_tokens : Z) :
  last (truncate messages max_tokens) = last messages
  ∧ system_prefix messages `prefix_of` truncate messages max_tokens
  ∧ (∀ m, m ∈ truncate messages max_tokens → m ∈ messages)
  ∧ length (truncate messages max_tokens) ≤ length messages.
Proof.
  destruct (Z.leb_spec (tokens messages) max_tokens) as [Hfit | Hover].
  { assert (truncate messages max_tokens = messages) as ->.
    { destruct messages as [|first rest]; [done|].
      unfold truncate_message_content. cbv zeta.
      fold (tokens (first :: rest)).
      now destruct (Z.leb_spec (tokens (first :: rest)) max_tokens); [|lia]. }
    repeat split; try done.
    destruct messages as [|first rest]; simpl; [done|].
    destruct (has_role "system" first); [|apply prefix_nil].
    now apply (prefix_app_r [first] [first] rest). }
  destruct (conversation_shape messages) as [Hsys | (middle & latest & Hshape)].
  { rewrite (truncate_system_only _ _ Hsys). repeat split; try done.
    now rewrite <- Hsys. }
  rewrite (truncate_unfold _ _ _ _ Hover Hshape).
  destruct (add_middle_spec
              (max_tokens - tokens (system_prefix messages ++ [latest]) - 1000)
              (rev middle) 0 (system_prefix messages) latest)
    as (taken & dropped & Hsplit & -> & _ & _).
  assert (middle = rev dropped ++ rev taken) as Hmiddle.
  { rewrite <- rev_app_distr, <- Hsplit, rev_involutive. reflexivity. }
  repeat split.
  - rewrite Hshape at 2. rewrite !app_assoc, !last_snoc. reflexivity.
  - now apply prefix_app_r.
  - intros m Hm. rewrite Hshape, Hmiddle.
    rewrite !elem_of_app in *.
    assert (∀ l : list message, m ∈ rev l ↔ m ∈ l) as Hrev.
    { intros l. rewrite !list_elem_of_In. symmetry. apply in_rev. }
    rewrite !Hrev. tauto.
  - rewrite Hshape at 2. rewrite Hmiddle, !length_app, !length_rev. lia.
Qed.

End TruncateFacts.

Lemma truncate_keeps_recent_messages_reversed_witness :
  ∃ skipped kept,
    [say "user" "one"; say "assistant" "two"; say "user" "three";
     say "assistant" "four"] = skipped ++ kept
    ∧ truncate_message_content flat_count
        [say "system" "rules"; say "user" "one"; say "assistant" "two";
         say "user" "three"; say "assistant" "four"; say "user" "five"] 3500
      = [say "system" "rules"] ++ rev kept ++ [say "user" "five"].
Proof.
  pose proof (truncate_keeps_recent_messages_reversed flat_count
    [say "system" "rules"; say "user" "one"; say "assistant" "two";
     say "user" "three"; say "assistant" "four"; say "user" "five"]
    [say "user" "one"; say "assistant" "two"; say "user" "three";
     say "assistant" "four"] (say "user" "five") 3500
    ltac:(vm_compute; reflexivity) ltac:(reflexivity))
    as (skipped & kept & H1 & H2 & _).
  exists skipped, kept. split; [exact H1 | exact H2].
Defined.

Lemma truncate_result_within_reserve_witness :
  let result := truncate_message_content flat_count
        [say "system" "rules"; say "user" "one"; say "assistant" "two";
         say "user" "three"; say "assistant" "four"; say "user" "five"] 3500 in
  length result ≤ 2 ∨ (tokens_of flat_count result ≤ 3500 - 1000)%Z.
Proof.
  apply truncate_result_within_reserve. vm_compute. reflexivity.
Defined.

End ChatFacts.

(** * Token estimate and trimming of the history *)

Module TrimFacts.
Import Chat.
Import ChatFacts.

Local Abbreviation chars := (λ m : item,
  match m with
  | Dict msg => Some (len (content_or_empty msg))
  | NotDict => None
  end).

Lemma chars_nonneg (messages : list item) : (0 ≤ sumZ (omap chars messages))%Z.
Proof.
  induction messages as [|[msg|] l IH].
  - unfold sumZ. simpl. lia.
  - change (0 ≤ sumZ (len (content_or_empty msg) :: omap chars l))%Z.
    rewrite sumZ_cons. unfold len in *. lia.
  - exact IH.
Qed.

Lemma chars_app (l1 l2 : list item) :
  sumZ (omap chars (l1 ++ l2)) = (sumZ (omap chars l1) + sumZ (omap chars l2))%Z.
Proof. now rewrite omap_app, sumZ_app. Qed.

(** X18. The estimate of [count_tokens] is at least one token, a quarter
    of the characters of the contents when that is more; entries that are
    not dicts do not count, and removing an entry never raises it. *)
Theorem count_tokens_bounds (before after : list item) (m : item) :
  (1 ≤ count_tokens (before ++ m :: after))%Z
  ∧ (count_tokens (before ++ after) ≤ count_tokens (before ++ m :: after))%Z
  ∧ (count_tokens (before ++ NotDict :: after) = count_tokens (before ++ after))
  ∧ (4 * count_tokens (before ++ m :: after)
     ≤ Z.max 4 (sumZ (omap chars (before ++ m :: after))))%Z.
Proof.
  unfold count_tokens. rewrite !chars_app.
  pose proof (chars_nonneg before). pose proof (chars_nonneg after).
  pose proof (chars_nonneg [m]) as Hm.
  replace (omap chars (m :: after)) with (omap chars [m] ++ omap chars after)
    by now destruct m.
  replace (omap chars (NotDict :: after)) with (omap chars after) by reflexivity.
  rewrite sumZ_app.
  set (a := sumZ (omap chars before)) in *. set (b := sumZ (omap chars after)) in *.
  set (c := sumZ (omap chars [m])) in *.
  repeat split.
  - lia.
  - apply Z.max_le_compat_l, Z.div_le_mono; lia.
  - pose proof (Z.mul_div_le (a + (c + b)) 4 ltac:(lia)). lia.
Qed.


Local Abbreviation count := (λ history : list message, count_tokens (map Dict history)).

Lemma last_app_nonempty {A} (l1 l2 : list A) : l2 ≠ [] → last (l1 ++ l2) = last l2.
Proof.
  destruct l2 as [|x l2] using rev_ind; [done|]. intros _.
  now rewrite app_assoc, !last_snoc.
Qed.

(** The loop, given turns enough to end: it drops a block of messages from
    [start_idx] on, never the last message; it ends within the budget or
    with nothing left to drop; and before each message dropped the history
    was over the budget. *)
Lemma trim_loop_spec (start_idx : nat) :
  ∀ (fuel : nat) (history : list message),
  (length history ≤ start_idx + 1 + fuel)%nat →
  ∃ k : nat,
    trim_loop fuel start_idx history
      = take start_idx history ++ drop (start_idx + k) history
    ∧ (k = 0%nat ∨ (start_idx + k < length history)%nat)
    ∧ ((length (trim_loop fuel start_idx history) ≤ start_idx + 1)%nat
       ∨ (count (trim_loop fuel start_idx history) ≤ MAX_CONTEXT_TOKENS)%Z)
    ∧ (∀ j : nat, (j < k)%nat →
         (MAX_CONTEXT_TOKENS
          < count (take start_idx history ++ drop (start_idx + j) history))%Z).
Proof.
  induction fuel as [|fuel IH]; intros history Hfuel.
  - exists 0%nat. simpl. rewrite Nat.add_0_r, take_drop.
    repeat split; [now left | left; lia | intros j Hj; lia].
  - simpl.
    destruct (Nat.ltb_spec (start_idx + 1) (length history)) as [Hlong|Hshort];
      [destruct (Z.ltb_spec MAX_CONTEXT_TOKENS (count history)) as [Hover|Hfit]|];
      simpl andb; cbv iota.
    + assert (length (take start_idx history) = start_idx) as Htake
        by (rewrite length_take; lia).
      assert (take start_idx (pop_at start_idx history) = take start_idx history)
        as Hopening.
      { unfold pop_at. rewrite take_app_le by lia. rewrite take_ge by lia. reflexivity. }
      assert (∀ j, drop (start_idx + j) (pop_at start_idx history)
                   = drop (start_idx + S j) history) as Hrest.
      { intros j. unfold pop_at. rewrite drop_app_ge by lia.
        rewrite Htake, drop_drop. f_equal. lia. }
      destruct (IH (pop_at start_idx history)) as (k & Hres & Hlast & Hexit & Hturns).
      { unfold pop_at. rewrite length_app, length_drop. lia. }
      exists (S k). rewrite Hopening, Hrest in Hres. repeat split.
      * exact Hres.
      * right. assert (length (pop_at start_idx history) = (length history - 1)%nat)
          as Hlen by (unfold pop_at; rewrite length_app, length_drop; lia).
        destruct Hlast as [-> | Hlast]; lia.
      * exact Hexit.
      * intros [|j] Hj.
        -- rewrite Nat.add_0_r, take_drop. exact Hover.
        -- rewrite <- Hopening, <- Hrest. apply Hturns. lia.
    + exists 0%nat. rewrite Nat.add_0_r, take_drop.
      repeat split; [now left | right; exact Hfit | intros j Hj; lia].
    + exists 0%nat. rewrite Nat.add_0_r, take_drop.
      repeat split; [now left | left; lia | intros j Hj; lia].
Qed.

(** X19. [trim_history] removes one block of consecutive messages, the
    oldest after the opening it preserves, and never the last message.  It
    removes a message only while the estimate is over
    [MAX_CONTEXT_TOKENS], and stops as soon as the estimate is within it or
    one message is left after the opening. *)
Theorem trim_history_drops_oldest_block (history : list message)
    (keep_system_first : bool) :
  let start_idx := find_start_idx history keep_system_first in
  let trimmed := trim_history history keep_system_first in
  ∃ k : nat,
    trimmed = take start_idx history ++ drop (start_idx + k) history
    ∧ (k = 0%nat ∨ (start_idx + k < length history)%nat)
    ∧ ((length trimmed ≤ start_idx + 1)%nat
       ∨ (count_tokens (map Dict trimmed) ≤ MAX_CONTEXT_TOKENS)%Z)
    ∧ (∀ j : nat, (j < k)%nat →
         (MAX_CONTEXT_TOKENS
          < count_tokens (map Dict
              (take start_idx history ++ drop (start_idx + j) history)))%Z).
Proof.
  intros start_idx trimmed. apply trim_loop_spec. lia.
Qed.

(** X20. The trimmed history opens with the same preserved messages as
    the history, ends with the same message, keeps the order of the
    messages it retains, and is the history itself when the estimate is
    within [MAX_CONTEXT_TOKENS]. *)
Theorem trim_history_keeps_opening_and_last (history : list message)
    (keep_system_first : bool) :
  let start_idx := find_start_idx history keep_system_first in
  let trimmed := trim_history history keep_system_first in
  take start_idx trimmed = take start_idx history
  ∧ last trimmed = last history
  ∧ trimmed `sublist_of` history
  ∧ ((count_tokens (map Dict history) ≤ MAX_CONTEXT_TOKENS)%Z → trimmed = history).
Proof.
  intros start_idx trimmed.
  destruct (trim_loop_spec start_idx (length history) history ltac:(lia))
    as (k & Hres & Hlast & _ & Hturns).
  change (trim_loop _ _ _) with trimmed in Hres.
  repeat split.
  - rewrite Hres. destruct (Nat.le_gt_cases (length history) start_idx) as [Hle|Hgt].
    + rewrite drop_ge by lia. rewrite app_nil_r. now rewrite take_take, Nat.min_id.
    + rewrite take_app_le by (rewrite length_take; lia).
      now rewrite take_take, Nat.min_id.
  - rewrite Hres. destruct Hlast as [-> | Hlast].
    + now rewrite Nat.add_0_r, take_drop.
    + assert (drop (start_idx + k) history ≠ []) as Hrest.
      { intros E. apply (f_equal length) in E. rewrite length_drop in E. simpl in E. lia. }
      rewrite (last_app_nonempty _ _ Hrest).
      rewrite <- (take_drop (start_idx + k) history) at 2.
      now rewrite (last_app_nonempty _ _ Hrest).
  - rewrite Hres. rewrite <- (take_drop start_idx history) at 3.
    apply sublist_app; [reflexivity|].
    rewrite <- drop_drop. apply sublist_drop.
  - intros Hfit. rewrite Hres. destruct k as [|k].
    + now rewrite Nat.add_0_r, take_drop.
    + specialize (Hturns 0%nat ltac:(lia)).
      rewrite Nat.add_0_r, take_drop in Hturns. lia.
Qed.


(** The scan finds the first user message, and nothing before it is one. *)
Lemma first_user_from_Some (messages : list message) :
  ∀ (a i : nat), first_user_from a messages = Some i →
  (a ≤ i)%nat
  ∧ (∃ u, messages !! (i - a)%nat = Some u ∧ has_role "user" u = true)
  ∧ (∀ j m, (j < i - a)%nat → messages !! j = Some m → has_role "user" m = false).
Proof.
  induction messages as [|msg rest IH]; intros a i; simpl; [discriminate|].
  destruct (has_role "user" msg) eqn:Hrole.
  - intros [= <-]. rewrite Nat.sub_diag. repeat split; [lia | eauto | intros; lia].
  - intros Hscan. destruct (IH _ _ Hscan) as (Hle & (u & Hu & Huser) & Hnone).
    replace (i - a)%nat with (S (i - S a)) by lia.
    repeat split; [lia | eauto |].
    intros [|j] m Hj; simpl; [now intros [= <-]|].
    apply Hnone. lia.
Qed.

Lemma first_user_from_None (messages : list message) (a : nat) :
  first_user_from a messages = None ↔ ∀ m, m ∈ messages → has_role "user" m = false.
Proof.
  revert a. induction messages as [|msg rest IH]; intros a; simpl.
  - split; [|done]. intros _ m Hm. inversion Hm.
  - destruct (has_role "user" msg) eqn:Hrole.
    + split; [discriminate|]. intros Hall.
      rewrite (Hall msg) in Hrole by left. discriminate.
    + rewrite IH. split.
      * intros Hall m Hm. inversion Hm; subst; auto.
      * intros Hall m Hm. apply Hall. now right.
Qed.

(** The scan reads nothing past the user message it finds. *)
Lemma first_user_from_take (messages later : list message) :
  ∀ (a i : nat), first_user_from a messages = Some i →
  first_user_from a (take (S i - a) messages ++ later) = Some i.
Proof.
  induction messages as [|msg rest IH]; intros a i; simpl; [discriminate|].
  destruct (has_role "user" msg) eqn:Hrole.
  - intros [= <-]. replace (S a - a)%nat with 1%nat by lia. simpl. now rewrite Hrole.
  - intros Hscan. destruct (first_user_from_Some _ _ _ Hscan) as (Hle & _).
    replace (S i - a)%nat with (S (i - a)) by lia. simpl. rewrite Hrole.
    specialize (IH _ _ Hscan). replace (S i - S a)%nat with (i - a)%nat in IH by lia.
    exact IH.
Qed.

(** X21. The opening [trim_history] preserves, when asked to keep it and
    the history starts with a system or a user message: the first message
    alone if no user message follows it, and otherwise everything up to
    and including the first user message after the first message. *)
Theorem preserved_opening_ends_at_next_user_message (first : message)
    (rest : list message) :
  has_role "system" first || has_role "user" first = true →
  let start_idx := find_start_idx (first :: rest) true in
  (1 ≤ start_idx ≤ length (first :: rest))%nat
  ∧ ((start_idx = 1%nat ∧ ∀ m, m ∈ rest → has_role "user" m = false)
     ∨ (∃ u, (first :: rest) !! (start_idx - 1)%nat = Some u
             ∧ has_role "user" u = true
             ∧ (2 ≤ start_idx)%nat
             ∧ ∀ j m, (1 ≤ j < start_idx - 1)%nat →
                 (first :: rest) !! j = Some m → has_role "user" m = false)).
Proof.
  intros Hrole. unfold find_start_idx. rewrite Hrole.
  destruct (first_user_from 1 rest) as [i|] eqn:Hscan; cbv zeta.
  - destruct (first_user_from_Some _ _ _ Hscan) as (Hle & (u & Hu & Huser) & Hnone).
    pose proof (lookup_lt_Some _ _ _ Hu) as Hlt.
    replace (i + 1 - 1)%nat with (S (i - 1)) by lia.
    split; [simpl; lia|]. right. exists u. repeat split; [exact Hu | exact Huser | lia |].
    intros [|j] m Hj; [lia|]. simpl. apply Hnone. lia.
  - split; [simpl; lia|]. left. split; [reflexivity|].
    now apply (first_user_from_None rest 1).
Qed.

(** Once the loop has nothing to do it returns the history. *)
Lemma trim_loop_done (fuel start_idx : nat) (history : list message) :
  (length history ≤ start_idx + 1)%nat ∨ (count history ≤ MAX_CONTEXT_TOKENS)%Z →
  trim_loop fuel start_idx history = history.
Proof.
  intros Hdone. destruct fuel as [|fuel]; [reflexivity|]. simpl.
  destruct (Nat.ltb_spec (start_idx + 1) (length history));
    destruct (Z.ltb_spec MAX_CONTEXT_TOKENS (count history)); try reflexivity.
  lia.
Qed.

(** Trimming leaves the opening to preserve where it was, unless there was
    none. *)
Lemma find_start_idx_trimmed (history : list message) (keep_system_first : bool)
    (k : nat) :
  let start_idx := find_start_idx history keep_system_first in
  (start_idx ≤ find_start_idx
     (take start_idx history ++ drop (start_idx + k) history) keep_system_first)%nat.
Proof.
  unfold find_start_idx.
  destruct history as [|first rest]; [simpl; lia|].
  destruct keep_system_first; [|simpl; lia].
  destruct (has_role "system" first || has_role "user" first) eqn:Hrole; [|simpl; lia].
  destruct (first_user_from 1 rest) as [i|] eqn:Hscan.
  - destruct (first_user_from_Some _ _ _ Hscan) as (Hle & _).
    replace (i + 1)%nat with (S i) by lia. simpl. rewrite Hrole.
    pose proof (first_user_from_take rest (drop (i + k) rest) 1 i Hscan) as Hkeep.
    replace (S i - 1)%nat with i in Hkeep by lia. rewrite Hkeep. lia.
  - simpl. rewrite Hrole.
    destruct (first_user_from 1 (drop k rest)) as [j|] eqn:Hscan'; [|lia].
    destruct (first_user_from_Some _ _ _ Hscan'). lia.
Qed.

(** X22. Trimming a trimmed history changes nothing. *)
Theorem trim_history_idempotent (history : list message) (keep_system_first : bool) :
  trim_history (trim_history history keep_system_first) keep_system_first
  = trim_history history keep_system_first.
Proof.
  destruct (trim_loop_spec (find_start_idx history keep_system_first)
              (length history) history ltac:(lia))
    as (k & Hres & _ & Hexit & _).
  change (trim_loop _ _ _) with (trim_history history keep_system_first) in *.
  unfold trim_history at 1. apply trim_loop_done.
  destruct Hexit as [Hshort | Hfit]; [left | now right].
  pose proof (find_start_idx_trimmed history keep_system_first k) as Hidx.
  cbv zeta in Hidx. rewrite <- Hres in Hidx. lia.
Qed.

Lemma preserved_opening_ends_at_next_user_message_witness :
  let start_idx :=
    find_start_idx
      (say "system" "rules" ::
       [say "assistant" "hello"; say "user" "question"; say "assistant" "answer";
        say "user" "more"]) true in
  (1 ≤ start_idx ≤ 5)%nat.
Proof.
  exact (proj1 (preserved_opening_ends_at_next_user_message (say "system" "rules")
    [say "assistant" "hello"; say "user" "question"; say "assistant" "answer";
     say "user" "more"] ltac:(reflexivity))).
Defined.

End TrimFacts.

(** * Model names for Azure *)

Module YamlFacts.
Import Yaml.

(** Induction on a document, with the property at hand for every value of
    a dict and every item of a list. *)
Lemma yaml_induction (P : yaml → Prop) :
  (∀ s, P (YStr s)) →
  (∀ repr, P (YOther repr)) →
  (∀ items, Forall (λ entry, P entry.2) items → P (YDict items)) →
  (∀ items, Forall P items → P (YList items)) →
  ∀ obj, P obj.
Proof.
  intros HStr HOther HDict HList. fix IH 1. intros [s|repr|items|items].
  - apply HStr.
  - apply HOther.
  - apply HDict. induction items as [|[key value] items IHitems]; constructor.
    + apply IH.
    + exact IHitems.
  - apply HList. induction items as [|item items IHitems]; constructor.
    + apply IH.
    + exact IHitems.
Qed.

Lemma startswith_azure_prefixed (s : string) : startswith_azure ("azure/" ++ s) = true.
Proof. unfold startswith_azure. simpl. now destruct s. Qed.

Lemma map_id_on {A} (f : A → A) (l : list A) :
  Forall (λ x, f x = x) l → map f l = l.
Proof. induction 1; simpl; congruence. Qed.

Lemma traverse_establishes (obj : yaml) : models_on_azure (traverse obj) = true.
Proof.
  induction obj as [s|repr|items IH|items IH] using yaml_induction; try reflexivity.
  - simpl. rewrite forallb_forall. intros entry Hin.
    apply in_map_iff in Hin as ([key value] & <- & Hin).
    rewrite List.Forall_forall in IH. specialize (IH _ Hin). simpl in IH.
    destruct (String.eqb key "model") eqn:Hkey.
    + destruct value as [s|repr|items'|items'].
      * destruct (startswith_azure s) eqn:Hs; rewrite Hkey; [exact Hs|].
        apply startswith_azure_prefixed.
      * now rewrite Hkey.
      * rewrite Hkey. exact IH.
      * rewrite Hkey. exact IH.
    + rewrite Hkey. exact IH.
  - simpl. rewrite forallb_forall. intros item Hin.
    apply in_map_iff in Hin as (item' & <- & Hin).
    rewrite List.Forall_forall in IH. now apply IH.
Qed.

Lemma traverse_compliant (obj : yaml) : models_on_azure obj = true → traverse obj = obj.
Proof.
  induction obj as [s|repr|items IH|items IH] using yaml_induction; try reflexivity.
  - simpl. rewrite forallb_forall. intros Hall. f_equal.
    apply map_id_on. rewrite List.Forall_forall in *. intros [key value] Hin.
    specialize (IH _ Hin). specialize (Hall _ Hin). simpl in *.
    destruct (String.eqb key "model").
    + destruct value as [s|repr|items'|items'].
      * now rewrite Hall.
      * reflexivity.
      * now rewrite IH.
      * now rewrite IH.
    + now rewrite IH.
  - simpl. rewrite forallb_forall. intros Hall. f_equal.
    apply map_id_on. rewrite List.Forall_forall in *. intros item Hin. auto.
Qed.

Lemma traverse_skeleton (obj : yaml) : skeleton (traverse obj) = skeleton obj.
Proof.
  induction obj as [s|repr|items IH|items IH] using yaml_induction; try reflexivity.
  - simpl. f_equal. rewrite map_map. apply map_ext_in.
    rewrite List.Forall_forall in IH. intros [key value] Hin.
    specialize (IH _ Hin). simpl in IH.
    destruct (String.eqb key "model") eqn:Hkey.
    + destruct value as [s|repr|items'|items'].
      * destruct (startswith_azure s); now rewrite Hkey.
      * now rewrite Hkey.
      * rewrite Hkey.
        destruct (traverse (YDict items')) eqn:E; try discriminate E; congruence.
      * rewrite Hkey.
        destruct (traverse (YList items')) eqn:E; try discriminate E; congruence.
    + rewrite Hkey. congruence.
  - simpl. f_equal. rewrite map_map. apply map_ext_in.
    rewrite List.Forall_forall in IH. exact IH.
Qed.

Lemma traverse_model_strings (obj : yaml) :
  model_strings (traverse obj) = map on_azure (model_strings obj).
Proof.
  induction obj as [s|repr|items IH|items IH] using yaml_induction; try reflexivity.
  - simpl. induction items as [|[key value] items IHitems]; [reflexivity|].
    inversion IH as [|? ? Hvalue Hrest]; subst. simpl in Hvalue.
    simpl. rewrite map_app, <- (IHitems Hrest). f_equal.
    destruct (String.eqb key "model") eqn:Hkey.
    + destruct value as [s|repr|items'|items'].
      * unfold on_azure. destruct (startswith_azure s) eqn:Hs; rewrite Hkey; simpl.
        -- now rewrite Hs.
        -- now rewrite Hs.
      * now rewrite Hkey.
      * rewrite Hkey.
        destruct (traverse (YDict items')) eqn:E; try discriminate E; congruence.
      * rewrite Hkey.
        destruct (traverse (YList items')) eqn:E; try discriminate E; congruence.
    + rewrite Hkey. exact Hvalue.
  - simpl. induction items as [|item items IHitems]; [reflexivity|].
    inversion IH as [|? ? Hitem Hrest]; subst.
    simpl. rewrite map_app, <- (IHitems Hrest). now f_equal.
Qed.

(** X23. After [fix_models_azure] every string stored under a key
    ["model"], at any depth of dicts and lists, starts with ["azure"];
    each of them is the string it was, with ["azure/"] put in front
    unless it started with ["azure"] already; nothing but those strings is
    changed; and a second run changes nothing. *)
Theorem fix_models_azure_establishes (parsed_yaml : yaml) :
  models_on_azure (fix_models_azure parsed_yaml) = true
  ∧ model_strings (fix_models_azure parsed_yaml)
    = map on_azure (model_strings parsed_yaml)
  ∧ skeleton (fix_models_azure parsed_yaml) = skeleton parsed_yaml
  ∧ fix_models_azure (fix_models_azure parsed_yaml) = fix_models_azure parsed_yaml.
Proof.
  unfold fix_models_azure. repeat split.
  - apply traverse_establishes.
  - apply traverse_model_strings.
  - apply traverse_skeleton.
  - apply traverse_compliant, traverse_establishes.
Qed.

(** X24. [fix_models_azure] leaves a document as it is exactly when every
    string under a key ["model"] already starts with ["azure"]. *)
Theorem fix_models_azure_unchanged_iff (parsed_yaml : yaml) :
  fix_models_azure parsed_yaml = parsed_yaml ↔ models_on_azure parsed_yaml = true.
Proof.
  unfold fix_models_azure. split.
  - intros <-. apply traverse_establishes.
  - apply traverse_compliant.
Qed.

End YamlFacts.

(** * Rewriting the pipeline steps *)

Module PipelineFacts.
Import Pipeline.

Section Facts.
Context {Rest : Type}.
Implicit Types (s : step Rest) (c : config Rest) (steps : list (step Rest)).

Lemma replace_ops_bound (names target_rest : list string) (target : string)
    (ops : list string) :
  ∀ new_ops,
  replace_ops (Some names) (target :: target_rest) ops new_ops
  = inr (new_ops ++ concat (map (replacement names target) ops)).
Proof.
  induction ops as [|op ops IH]; intros new_ops; simpl.
  - now rewrite app_nil_r.
  - pose proof (eq_refl : replacement names target op
                          = if String.eqb op target then names else []) as Hop.
    destruct (String.eqb op target); rewrite Hop, IH.
    + now rewrite app_assoc.
    + reflexivity.
Qed.

Lemma update_steps_map (op_names : option (list string)) (target_ops : list string)
    (f : step Rest → step Rest) steps :
  Forall (λ s, update_step op_names target_ops s = inr (f s)) steps →
  update_steps op_names target_ops steps = inr (map f steps).
Proof.
  induction 1 as [|s steps Hs _ IH]; simpl; [reflexivity|].
  now rewrite Hs, IH.
Qed.

Lemma update_steps_fails (op_names : option (list string)) (target_ops : list string)
    (e : failure) steps :
  Forall (λ s, update_step op_names target_ops s = inl e
               ∨ ∃ s', update_step op_names target_ops s = inr s') steps →
  Exists (λ s, update_step op_names target_ops s = inl e) steps →
  update_steps op_names target_ops steps = inl e.
Proof.
  induction 1 as [|s steps Hs _ IH]; intros Hex; [inversion Hex|]. simpl.
  destruct Hs as [-> | [s' Hs']]; [reflexivity|]. rewrite Hs'.
  inversion Hex as [? ? Hhere | ? ? Hlater]; subst; [congruence|].
  now rewrite IH.
Qed.

(** X25. With a list of new operations and a target, [update_pipeline]
    rewrites the list of operations of every step that has one: each
    occurrence of the first target name is replaced by the names of the new
    operations that have a name, and every other operation is dropped.
    Steps without a list of operations, a configuration without pipeline
    steps, and the target names after the first play no part. *)
Theorem update_pipeline_replaces_first_target c (new_ops_list : list operation)
    (target : string) (target_rest : list string) :
  update_pipeline c (Some new_ops_list) (target :: target_rest)
  = inr (with_steps (replaced_step (names_of new_ops_list) target) c)
  ∧ ∀ s op,
      s ∈ steps_of (with_steps (replaced_step (names_of new_ops_list) target) c) →
      op ∈ step_ops s → op ∈ names_of new_ops_list.
Proof.
  split.
  - unfold update_pipeline, with_steps. simpl.
    destruct (pipeline_steps c) as [steps|] eqn:Hsteps; simpl.
    + rewrite (update_steps_map _ _ (replaced_step (names_of new_ops_list) target));
        [reflexivity|].
      apply List.Forall_forall. intros [ops rest] _.
      unfold update_step, replaced_step. simpl.
      destruct ops as [ops|]; simpl; [|reflexivity].
      now rewrite replace_ops_bound.
    + destruct c. simpl in *. now subst.
  - unfold steps_of, with_steps. simpl. intros s op Hs Hop.
    destruct (pipeline_steps c) as [steps|]; simpl in Hs; [|inversion Hs].
    apply list_elem_of_fmap in Hs as (s0 & -> & _).
    unfold step_ops, replaced_step in Hop. simpl in Hop.
    destruct (operations s0) as [ops|]; simpl in Hop; [|inversion Hop].
    apply list_elem_of_In, in_concat in Hop as (names & Hnames & Hop).
    apply in_map_iff in Hnames as (op0 & <- & _).
    unfold replacement in Hop.
    destruct (String.eqb op0 target); [now apply list_elem_of_In|inversion Hop].
Qed.


Lemma update_step_without_targets (op_names : option (list string)) s :
  update_step op_names [] s
  = if decide (step_ops s = []) then inr s else inl IndexError.
Proof.
  destruct s as [[[|op ops]|] rest]; reflexivity.
Qed.

(** X26. With an empty list of targets [update_pipeline] raises
    [IndexError] as soon as some step lists an operation, whatever the new
    operations are; when no step lists any, it returns the configuration
    unchanged. *)
Theorem update_pipeline_without_targets c (new_ops_list : option (list operation)) :
  update_pipeline c new_ops_list []
  = if decide (Forall (λ s, step_ops s = []) (steps_of c))
    then inr c else inl IndexError.
Proof.
  unfold update_pipeline, steps_of.
  destruct c as [[steps|] rest]; simpl; [|reflexivity].
  destruct (decide (Forall (λ s, step_ops s = []) steps)) as [Hnone | Hsome].
  - rewrite (update_steps_map _ _ (λ s, s)); [now rewrite map_id|].
    eapply Forall_impl; [exact Hnone|]. intros s Hs. simpl.
    rewrite update_step_without_targets. now case_decide.
  - rewrite (update_steps_fails _ _ IndexError); [reflexivity| |].
    + apply List.Forall_forall. intros s _. rewrite update_step_without_targets.
      case_decide; eauto.
    + apply not_Forall_Exists in Hsome; [|intros s; apply _].
      eapply List.Exists_impl; [|exact Hsome]. intros s Hs. simpl in Hs.
      rewrite update_step_without_targets. now case_decide.
Qed.

Lemma replace_ops_unbound (target : string) (target_rest ops : list string) :
  ∀ new_ops,
  replace_ops None (target :: target_rest) ops new_ops
  = if decide (target ∈ ops) then inl UnboundLocalError else inr new_ops.
Proof.
  induction ops as [|op ops IH]; intros new_ops; [reflexivity|].
  cbn [replace_ops].
  - destruct (String.eqb_spec op target) as [-> | Hne].
    + destruct (decide (target ∈ target :: ops)) as [|Hout]; [reflexivity|].
      destruct Hout. left.
    + rewrite IH. destruct (decide (target ∈ ops)) as [Hin | Hout];
        destruct (decide (target ∈ op :: ops)) as [Hin' | Hout']; try reflexivity.
      * destruct Hout'. now right.
      * inversion Hin'; subst; [congruence | contradiction].
Qed.

Lemma update_step_unbound (target : string) (target_rest : list string) s :
  update_step None (target :: target_rest) s
  = if decide (target ∈ step_ops s) then inl UnboundLocalError
    else inr (emptied_step s).
Proof.
  destruct s as [[ops|] rest]; unfold update_step, step_ops, emptied_step; simpl.
  - rewrite replace_ops_unbound. now case_decide.
  - reflexivity.
Qed.

(** X27. Without a list of new operations ([None]) [update_pipeline]
    raises [UnboundLocalError] as soon as some step lists the first target;
    when no step lists it, it returns the configuration with the list of
    operations of every step emptied. *)
Theorem update_pipeline_without_new_operations c (target : string)
    (target_rest : list string) :
  update_pipeline c None (target :: target_rest)
  = if decide (Exists (λ s, target ∈ step_ops s) (steps_of c))
    then inl UnboundLocalError else inr (with_steps emptied_step c).
Proof.
  unfold update_pipeline, steps_of, with_steps.
  destruct c as [[steps|] rest]; simpl.
  - destruct (decide (Exists (λ s, target ∈ step_ops s) steps)) as [Hsome | Hnone].
    + rewrite (update_steps_fails _ _ UnboundLocalError); [reflexivity| |].
      * apply List.Forall_forall. intros s _. rewrite update_step_unbound.
        case_decide; eauto.
      * eapply List.Exists_impl; [|exact Hsome]. intros s Hs. simpl in Hs.
        rewrite update_step_unbound. now case_decide.
    + rewrite (update_steps_map _ _ emptied_step); [reflexivity|].
      apply List.Forall_forall. intros s Hs. rewrite update_step_unbound.
      case_decide as Hin; [|reflexivity].
      destruct Hnone. apply List.Exists_exists. eauto.
  - reflexivity.
Qed.

End Facts.
End PipelineFacts.

(** * Directive groups and the exploration test *)

(** X28. [get_directive_group] returns the first group, in the order of
    [DIRECTIVE_GROUPS], that has a directive of the given name, and [None]
    exactly when no group has one. *)
Theorem get_directive_group_first_match (DIRECTIVE_GROUPS : list (string * list string))
    (directive_name : string) :
  match get_directive_group DIRECTIVE_GROUPS directive_name with
  | Some group_name =>
      ∃ before directives after,
        DIRECTIVE_GROUPS = before ++ (group_name, directives) :: after
        ∧ directive_name ∈ directives
        ∧ Forall (λ group, directive_name ∉ group.2) before
  | None => Forall (λ group, directive_name ∉ group.2) DIRECTIVE_GROUPS
  end.
Proof.
  unfold get_directive_group.
  induction DIRECTIVE_GROUPS as [|[group_name directives] groups IH]; simpl.
  - constructor.
  - destruct (existsb _ directives) eqn:Hfound.
    + exists [], directives, groups. repeat split; [|constructor].
      apply existsb_exists in Hfound as (directive & Hin & Heq).
      apply String.eqb_eq in Heq as <-. now apply list_elem_of_In.
    + assert (directive_name ∉ directives) as Hout.
      { intros Hin. apply list_elem_of_In in Hin.
        assert (existsb (λ directive, String.eqb directive directive_name) directives
                = true) as E; [|congruence].
        apply existsb_exists. exists directive_name. split; [exact Hin|].
        apply String.eqb_refl. }
      destruct (find_group groups directive_name) as [found|].
      * destruct IH as (before & ds & after & -> & Hin & Hbefore).
        exists ((group_name, directives) :: before), ds, after.
        repeat split; [exact Hin|]. now constructor.
      * now constructor.
Qed.

Module SearchFacts.
Import Search.

Lemma max_float_large : (IZR (2 ^ 53) <= max_float)%R.
Proof. unfold max_float. apply IZR_le. vm_compute. intros E. discriminate E. Qed.

(** The floor of a real number between an integer and the next. *)
Lemma floor_between (x : R) (s : Z) :
  (IZR s <= x)%R → (x < IZR s + 1)%R → Int_part x = s.
Proof. intros Hlow Hhigh. symmetry. apply Int_part_spec. lra. Qed.

Section Facts.
Variable round : R → R.
Hypothesis Hmonotone : round_monotone round.
Hypothesis Hexact : round_exact round.

Lemma round_int (m : Z) : (Z.abs m < 2 ^ 53)%Z → round (IZR m) = IZR m.
Proof.
  intros Hm. pose proof (Hexact m 0%Z Hm ltac:(lia)) as H.
  change (IZR (2 ^ 0)) with 1%R in H. now rewrite Rdiv_1_r in H.
Qed.

(** A number not past [2^53] in size does not overflow. *)
Lemma rounded_small (x : R) (bound : Z) :
  (Z.abs bound < 2 ^ 53)%Z →
  (- IZR bound <= x <= IZR bound)%R →
  rounded round x = Finite (round x) ∧ (- IZR bound <= round x <= IZR bound)%R.
Proof.
  intros Hb Hx.
  assert (- IZR bound <= round x <= IZR bound)%R as Hr.
  { split.
    - rewrite <- opp_IZR, <- (round_int (- bound)) by lia.
      apply Hmonotone. rewrite opp_IZR. lra.
    - rewrite <- (round_int bound) by exact Hb. apply Hmonotone. lra. }
  split; [|exact Hr]. unfold rounded.
  destruct (Rlt_dec max_float (Rabs (round x))) as [Hover|_]; [|reflexivity].
  exfalso. pose proof max_float_large as Hmax.
  assert (IZR bound < IZR (2 ^ 53))%R as Hlt by (apply IZR_lt; lia).
  assert (Rabs (round x) <= IZR bound)%R by (apply Rabs_le; lra). lra.
Qed.

(** The float of a visit count below [2^53] in size is the count. *)
Lemma float_of_small_int (v : Z) :
  (Z.abs v < 2 ^ 53)%Z → float_of_int round v = inr (Finite (IZR v)).
Proof.
  intros Hv. unfold float_of_int.
  destruct (rounded_small (IZR v) (Z.abs v)) as [-> _].
  - rewrite Z.abs_idemp. exact Hv.
  - rewrite <- opp_IZR. split; apply IZR_le; lia.
  - now rewrite round_int.
Qed.

(** The largest float below [s + 1], for [s] below [2^26]. *)
Local Abbreviation below_next s := (IZR ((s + 1) * 2 ^ 27 - 1) / IZR (2 ^ 27))%R.

Lemma below_next_value (s : Z) : below_next s = (IZR s + 1 - / IZR (2 ^ 27))%R.
Proof.
  assert (0 < IZR (2 ^ 27))%R by (apply IZR_lt; reflexivity).
  rewrite minus_IZR, mult_IZR, plus_IZR. field. lra.
Qed.

(** Rounding keeps a number between an integer below [2^26] and the
    largest float below the next integer. *)
Lemma round_window (s : Z) (x : R) :
  (0 ≤ s < 2 ^ 26)%Z →
  (IZR s <= x <= below_next s)%R →
  (IZR s <= round x <= below_next s)%R.
Proof.
  intros Hs [Hlow Hhigh]. split.
  - rewrite <- (round_int s) by lia. now apply Hmonotone.
  - rewrite <- (Hexact ((s + 1) * 2 ^ 27 - 1)%Z 27%Z) by lia.
    now apply Hmonotone.
Qed.

(** The square root of a count below [2^52] lies between its integer
    square root and the largest float below the next integer. *)
Lemma sqrt_window (v : Z) :
  (0 ≤ v < 2 ^ 52)%Z →
  (0 ≤ Z.sqrt v < 2 ^ 26)%Z
  ∧ (IZR (Z.sqrt v) <= sqrt (IZR v) <= below_next (Z.sqrt v))%R.
Proof.
  intros [Hv0 Hv].
  destruct (Z.sqrt_spec v Hv0) as [Hs1 Hs2].
  pose proof (Z.sqrt_nonneg v) as Hs0.
  assert (Z.sqrt v < 2 ^ 26)%Z as Hs.
  { apply Z.sqrt_lt_square; [lia|lia|]. exact Hv. }
  split; [lia|].
  rewrite below_next_value.
  set (s := Z.sqrt v) in *.
  assert (0 < IZR (2 ^ 27))%R as HK by (apply IZR_lt; reflexivity).
  assert (0 < / IZR (2 ^ 27))%R as Hk by now apply Rinv_0_lt_compat.
  assert (0 <= IZR s)%R as Hs0' by now apply IZR_le.
  assert (2 * (IZR s + 1) * / IZR (2 ^ 27) <= 1)%R as Hsmall.
  { apply (Rmult_le_reg_r (IZR (2 ^ 27))); [exact HK|].
    rewrite Rmult_assoc, Rinv_l, Rmult_1_r, Rmult_1_l by lra.
    replace (2 * (IZR s + 1))%R with (IZR (2 * (s + 1))) by
      (rewrite mult_IZR, plus_IZR; reflexivity).
    apply IZR_le. change (2 ^ 27)%Z with (2 * 2 ^ 26)%Z. lia. }
  assert (IZR v <= (IZR s + 1) * (IZR s + 1) - 1)%R as Hv'.
  { replace ((IZR s + 1) * (IZR s + 1) - 1)%R with (IZR ((s + 1) * (s + 1) - 1))
      by (rewrite minus_IZR, mult_IZR, plus_IZR; reflexivity).
    apply IZR_le. lia. }
  split.
  - rewrite <- (sqrt_square (IZR s)) at 1 by exact Hs0'.
    apply sqrt_le_1_alt. rewrite <- mult_IZR. now apply IZR_le.
  - rewrite <- (sqrt_square (IZR s + 1 - / IZR (2 ^ 27))) by nra.
    apply sqrt_le_1_alt. nra.
Qed.

Context {Child : Type}.
Implicit Types (n : node Child).

(** X29.  With the default multiplier and a visit count from 0 to below
    [2^52], a node is fully explored exactly when it has at least
    [max(2, 1 + isqrt(visits))] children, for every rounding of the float
    operations that keeps the order and leaves floats as they are. *)
Theorem fully_explored_by_integer_square_root n :
  (0 ≤ visits n < 2 ^ 52)%Z →
  is_fully_explored round n default_max_children_multiplier
  = inr (Z.max 2 (1 + Z.sqrt (visits n)) <=? Z.of_nat (length (children n)))%Z.
Proof.
  intros Hv. unfold is_fully_explored, default_max_children_multiplier.
  rewrite float_of_small_int by lia. simpl.
  destruct (Rlt_dec (IZR (visits n)) 0) as [Hneg|_].
  { apply lt_IZR in Hneg. lia. }
  destruct (sqrt_window (visits n) Hv) as [Hs Hroot].
  pose proof (round_window _ _ Hs Hroot) as Hroot1.
  set (root := round (sqrt (IZR (visits n)))) in *.
  assert (IZR (Z.sqrt (visits n)) <= root * 1 <= below_next (Z.sqrt (visits n)))%R
    as Hproduct by (rewrite Rmult_1_r; exact Hroot1).
  pose proof (round_window _ _ Hs Hproduct) as Hproduct1.
  pose proof (below_next_value (Z.sqrt (visits n))) as Hnext.
  assert (0 < / IZR (2 ^ 27))%R as Hk
    by (apply Rinv_0_lt_compat, IZR_lt; reflexivity).
  change (mul round (Finite root) (Finite 1)) with (rounded round (root * 1)).
  destruct (rounded_small (root * 1) (Z.sqrt (visits n) + 1)) as [-> _].
  - lia.
  - rewrite plus_IZR. assert (0 <= IZR (Z.sqrt (visits n)))%R by (apply IZR_le; lia).
    lra.
  - simpl. rewrite (floor_between _ (Z.sqrt (visits n))) by lra. reflexivity.
Qed.

(** X30.  Whatever the multiplier, a finite number, an infinity or a NaN,
    and whatever the rounding of that kind: a node reported fully explored
    has at least two children; the test returns only for a visit count
    that is not negative, and for a negative one above [-2^53] it raises
    [ValueError]; for a visit count from 1 to below [2^53] a NaN multiplier
    makes it raise [ValueError] and an infinite one [OverflowError]. *)
Theorem fully_explored_needs_two_children n (max_children_multiplier : float64) :
  (∀ explored, is_fully_explored round n max_children_multiplier = inr explored →
     (0 ≤ visits n)%Z ∧ (explored = true → 2 ≤ length (children n)))
  ∧ ((- 2 ^ 53 < visits n < 0)%Z →
       is_fully_explored round n max_children_multiplier = inl ValueError)
  ∧ ((1 ≤ visits n < 2 ^ 53)%Z →
       (max_children_multiplier = Nan →
          is_fully_explored round n max_children_multiplier = inl ValueError)
       ∧ (∀ negative, max_children_multiplier = Inf negative →
            is_fully_explored round n max_children_multiplier = inl OverflowError)).
Proof.
  split; [|split].
  - intros explored. unfold is_fully_explored, float_of_int.
    destruct (rounded round (IZR (visits n))) as [| |r] eqn:Hr; try discriminate.
    simpl. destruct (Rlt_dec r 0) as [|Hpos]; [discriminate|].
    destruct (math_floor _) as [|floor]; [discriminate|].
    intros [= <-]. split.
    + apply Z.le_ngt. intros Hneg. apply Hpos.
      unfold rounded in Hr. destruct (Rlt_dec _ _); [discriminate|].
      injection Hr as <-.
      apply Rle_lt_trans with (round (IZR (-1))).
      * apply Hmonotone, IZR_le. lia.
      * rewrite round_int by reflexivity. lra.
    + intros Hle. apply Z.leb_le in Hle. lia.
  - intros Hv. unfold is_fully_explored.
    rewrite float_of_small_int by lia. simpl.
    destruct (Rlt_dec (IZR (visits n)) 0) as [|Hpos]; [reflexivity|].
    destruct Hpos. apply IZR_lt. lia.
  - intros Hv.
    assert (math_sqrt round (Finite (IZR (visits n)))
            = inr (Finite (round (sqrt (IZR (visits n))))) ∧
            (1 <= round (sqrt (IZR (visits n))))%R) as [Hsqrt Hroot].
    { simpl. destruct (Rlt_dec (IZR (visits n)) 0) as [Hneg|_].
      { apply lt_IZR in Hneg. lia. }
      split; [reflexivity|].
      rewrite <- (round_int 1) by reflexivity. apply Hmonotone.
      rewrite <- sqrt_1. apply sqrt_le_1_alt. apply IZR_le. lia. }
    split.
    + intros ->. unfold is_fully_explored.
      rewrite float_of_small_int by lia. rewrite Hsqrt. reflexivity.
    + intros negative ->. unfold is_fully_explored.
      rewrite float_of_small_int by lia. rewrite Hsqrt. simpl.
      destruct (Req_dec_T _ 0) as [E|_]; [lra|reflexivity].
Qed.

End Facts.

Lemma exact_rounding_monotone : round_monotone (λ x, x).
Proof. intros x y H. exact H. Qed.

Lemma exact_rounding_exact : round_exact (λ x, x).
Proof. intros m k _ _. reflexivity. Qed.

Lemma fully_explored_by_integer_square_root_witness :
  is_fully_explored (λ x, x) {| visits := 10; children := ["a"; "b"; "c"]%string |}
    default_max_children_multiplier = inr false.
Proof.
  rewrite (fully_explored_by_integer_square_root (λ x, x)
             exact_rounding_monotone exact_rounding_exact).
  - reflexivity.
  - simpl. lia.
Defined.

Lemma fully_explored_needs_two_children_witness :
  is_fully_explored (λ x, x) {| visits := -3; children := ["a"]%string |}
    (Inf false) = inl ValueError.
Proof.
  apply (proj1 (proj2 (fully_explored_needs_two_children (λ x, x)
                          exact_rounding_monotone exact_rounding_exact
                          {| visits := -3; children := ["a"]%string |}
                          (Inf false)))).
  split; reflexivity.
Defined.

End SearchFacts.
